(** * folly/futures/Future-pre.h

    A shallow embedding of the two pieces of [Future-pre.h]:

    - the compile-time continuation-signature resolver ([isFutureOrSemiFuture],
      [callableWith], [callableResult]), embedded as functions over a small
      universe of C++ types;
    - the run-time [DeferredExecutor] (the deferred work cell), embedded as
      state-passing functions over a record for the object, with a trace of
      the calls it makes to its collaborators, and as a two-thread step
      machine for the race between [add] and [setExecutor]. *)

From Stdlib Require Import List ZArith Lia Bool Arith.
Import ListNotations.

Set Implicit Arguments.
Set Warnings "-register-all".

(* ================================================================= *)
(** * Part I.  The continuation-signature resolver                    *)
(* ================================================================= *)

(** The C++ types the templates are instantiated at.  [TClass n] stands for
    any other class type. *)
Inductive Ty : Type :=
| TVoid
| TUnit
| TBool
| TInt
| TString
| TClass (n : nat)
| TFuture (t : Ty)
| TSemiFuture (t : Ty)
| TTry (t : Ty).

(** An argument of a trial call [std::declval<F>()(std::declval<Args>()...)]:
    [std::declval<T&&>()] is an rvalue, [std::declval<T&>()] an lvalue. *)
Inductive ArgTy : Type :=
| RvalueRef (t : Ty)
| LvalueRef (t : Ty).

(** A callable type [F], seen through the only question the header asks of
    it: [resultOf<F, Args...>], the type of the call expression, which does
    not exist ([None]) when [F] cannot be called with [Args...]. *)
Definition Callable : Type := list ArgTy -> option Ty.

Definition resultOf (F : Callable) (Args : list ArgTy) : option Ty := F Args.

(** [callableWith<F, Args...>::value]: the first [check] overload is viable
    exactly when [resultOf<T, Args...>] exists. *)
Definition callableWith (F : Callable) (Args : list ArgTy) : bool :=
  match resultOf F Args with
  | Some _ => true
  | None => false
  end.

(** [argResult<isTry, F, Args...>]; naming the type does not instantiate
    it, [Result] does. *)
Record argResult : Type := mk_argResult {
  isTry : bool;
  arg_F : Callable;
  arg_Args : list ArgTy
}.

Definition Result (a : argResult) : option Ty :=
  resultOf (arg_F a) (arg_Args a).

(** The members of an [isFutureOrSemiFuture<T>] instantiation. *)
Record FutureTrait : Type := mk_FutureTrait {
  value : bool;
  Inner : Ty;
  Return : Ty
}.

(** The members of a [callableResult<T, F>] instantiation. *)
Record CallableResult : Type := mk_CallableResult {
  Arg : argResult;
  ReturnsFuture : FutureTrait;
  cr_Return : Ty
}.

Section Resolver.

(** [Unit::Lift<T>::type].  [Unit] is declared in folly/Unit.h, outside
    this header, so the resolver is embedded over any such type
    function. *)
Variable Lift : Ty -> Ty.

Definition isFutureOrSemiFuture (T : Ty) : FutureTrait :=
  match T with
  | TFuture t =>
      {| value := true; Inner := t; Return := TFuture t |}
  | TSemiFuture t =>
      {| value := true; Inner := t; Return := TSemiFuture t |}
  | _ =>
      {| value := false; Inner := Lift T; Return := Lift T |}
  end.

(** The nested [std::conditional] of [callableResult<T, F>::Arg], for a
    [T] that [T&&] and [T&] can be formed of ([referenceable] below).  The
    conditional names all four reference types whichever branch is taken,
    so at [T = void] the source has no instantiation at all; what this
    function computes there stands for nothing in the header. *)
Definition callableResult_Arg (T : Ty) (F : Callable) : argResult :=
  if callableWith F []
  then mk_argResult false F []
  else if callableWith F [RvalueRef T]
  then mk_argResult false F [RvalueRef T]
  else if callableWith F [LvalueRef T]
  then mk_argResult false F [LvalueRef T]
  else if callableWith F [RvalueRef (TTry T)]
  then mk_argResult true F [RvalueRef (TTry T)]
  else mk_argResult true F [LvalueRef (TTry T)].

(** [callableResult<T, F>], for a [referenceable] [T] as above.
    [ReturnsFuture] names [Arg::Result], so the instantiation is ill-formed
    ([None], a compile error) when the selected call expression does not
    exist. *)
Definition callableResult (T : Ty) (F : Callable) : option CallableResult :=
  let A := callableResult_Arg T F in
  match Result A with
  | Some R =>
      let RF := isFutureOrSemiFuture R in
      Some {| Arg := A; ReturnsFuture := RF; cr_Return := TFuture (Inner RF) |}
  | None => None
  end.

End Resolver.

(** The types a reference can be formed to: every one but [void].
    [callableResult<T, F>] forms [T&&] and [T&], so it can be instantiated at
    these only. *)
Definition referenceable (T : Ty) : bool :=
  match T with
  | TVoid => false
  | _ => true
  end.

(** [Unit::Lift] as folly/Unit.h declares it:
    [std::conditional<std::is_same<T, void>::value, Unit, T>]. *)
Definition UnitLift (t : Ty) : Ty :=
  match t with
  | TVoid => TUnit
  | _ => t
  end.

(** ** The resolution order in the specification's words

    The five calling forms, and the first one of them the callable accepts. *)
Inductive Form : Type :=
| ValueDiscarding
| ValueByMove
| ValueByReference
| WrappedByMove
| WrappedByReference.

Definition form_order : list Form :=
  [ValueDiscarding; ValueByMove; ValueByReference; WrappedByMove;
   WrappedByReference].

Definition form_Args (T : Ty) (f : Form) : list ArgTy :=
  match f with
  | ValueDiscarding => []
  | ValueByMove => [RvalueRef T]
  | ValueByReference => [LvalueRef T]
  | WrappedByMove => [RvalueRef (TTry T)]
  | WrappedByReference => [LvalueRef (TTry T)]
  end.

Definition form_isTry (f : Form) : bool :=
  match f with
  | WrappedByMove | WrappedByReference => true
  | _ => false
  end.

Definition first_match (T : Ty) (F : Callable) : option Form :=
  find (fun f => callableWith F (form_Args T f)) form_order.

(** ** The other traits of the header *)

(** The members of an [isSemiFuture<T>] or [isFuture<T>] instantiation. *)
Record InnerTrait : Type := mk_InnerTrait {
  trait_value : bool;
  trait_Inner : Ty
}.

Section Traits.

Variable Lift : Ty -> Ty.

(** [isSemiFuture<T>]: the primary template and the specialisation for
    [SemiFuture<T>]. *)
Definition isSemiFuture (T : Ty) : InnerTrait :=
  match T with
  | TSemiFuture t => {| trait_value := true; trait_Inner := t |}
  | _ => {| trait_value := false; trait_Inner := Lift T |}
  end.

(** [isFuture<T>]: the primary template and the specialisation for
    [Future<T>]. *)
Definition isFuture (T : Ty) : InnerTrait :=
  match T with
  | TFuture t => {| trait_value := true; trait_Inner := t |}
  | _ => {| trait_value := false; trait_Inner := Lift T |}
  end.

End Traits.

(** The template [isTry<T>] (the field [isTry] above is the template
    argument of [argResult]). *)
Definition isTry_type (T : Ty) : bool :=
  match T with
  | TTry _ => true
  | _ => false
  end.

(** The type under the reference of a trial argument. *)
Definition ArgTy_type (x : ArgTy) : Ty :=
  match x with
  | RvalueRef t => t
  | LvalueRef t => t
  end.

(** [ArgType<Args...>::FirstArg]. *)
Definition ArgType_FirstArg (Args : list Ty) : Ty :=
  match Args with
  | Arg0 :: _ => Arg0
  | [] => TVoid
  end.

(** The four shapes of callable type [Extract] is specialised for, each
    with a return type [R] and parameter types [Args...]. *)
Inductive CallableShape : Type :=
| ConstMemberFunction
| MemberFunction
| FunctionPointer
| FunctionReference.

Record Signature : Type := mk_Signature {
  sig_shape : CallableShape;
  sig_R : Ty;
  sig_Args : list Ty
}.

(** The members of an [Extract] instantiation. *)
Record Extracted : Type := mk_Extracted {
  ex_ReturnsFuture : FutureTrait;
  ex_Return : Ty;
  ex_RawReturn : Ty;
  ex_FirstArg : Ty
}.

Section Extraction.

Variable Lift : Ty -> Ty.

(** [Extract], one branch per specialisation. *)
Definition Extract (s : Signature) : Extracted :=
  match sig_shape s with
  | ConstMemberFunction =>
      let RF := isFutureOrSemiFuture Lift (sig_R s) in
      {| ex_ReturnsFuture := RF;
         ex_Return := TFuture (Inner RF);
         ex_RawReturn := Inner RF;
         ex_FirstArg := ArgType_FirstArg (sig_Args s) |}
  | MemberFunction =>
      let RF := isFutureOrSemiFuture Lift (sig_R s) in
      {| ex_ReturnsFuture := RF;
         ex_Return := TFuture (Inner RF);
         ex_RawReturn := Inner RF;
         ex_FirstArg := ArgType_FirstArg (sig_Args s) |}
  | FunctionPointer =>
      let RF := isFutureOrSemiFuture Lift (sig_R s) in
      {| ex_ReturnsFuture := RF;
         ex_Return := TFuture (Inner RF);
         ex_RawReturn := Inner RF;
         ex_FirstArg := ArgType_FirstArg (sig_Args s) |}
  | FunctionReference =>
      let RF := isFutureOrSemiFuture Lift (sig_R s) in
      {| ex_ReturnsFuture := RF;
         ex_Return := TFuture (Inner RF);
         ex_RawReturn := Inner RF;
         ex_FirstArg := ArgType_FirstArg (sig_Args s) |}
  end.

End Extraction.

(* ================================================================= *)
(** * Part II.  [DeferredExecutor], one thread                        *)
(* ================================================================= *)

(** [enum class State]. *)
Inductive State : Type :=
| NEW
| HAS_EXECUTOR
| HAS_CALLBACK
| RUNNING.

Definition State_eqb (a b : State) : bool :=
  match a, b with
  | NEW, NEW => true
  | HAS_EXECUTOR, HAS_EXECUTOR => true
  | HAS_CALLBACK, HAS_CALLBACK => true
  | RUNNING, RUNNING => true
  | _, _ => false
  end.

(** [folly::Func], a unit of work.  The header never looks inside one; what
    the cell can observe of a work item is which one it is ([tag]) and the
    calls it makes back into the cell while it runs: [reenter] lists the work
    items it passes to [add], in order. *)
Inductive Func : Type :=
| MkFunc (tag : nat) (reenter : list Func).

(** An [Executor] other than the cell itself (declared in folly/Executor.h).
    Its [add] either runs the work before returning ([exec_inline], as
    InlineExecutor does) or keeps it for later. *)
Record Executor : Type := mk_Executor {
  exec_tag : nat;
  exec_inline : bool
}.

(** What the cell does to the outside, in order. *)
Inductive Event : Type :=
| Submitted (e : Executor) (f : Func) (st : State)
    (** [e->add(f)] was called while [state_] was [st] *)
| Invoked (f : Func)
    (** [f()] was called *).

(** The data members of [DeferredExecutor].  An empty [folly::Function] or
    [KeepAlive] is [None]. *)
Record DeferredExecutor : Type := mk_DeferredExecutor {
  func_ : option Func;
  keepAliveCount_ : Z;
  state_ : State;
  executorKeepAlive_ : option Executor
}.

Record World : Type := mk_World {
  cell : DeferredExecutor;
  trace : list Event
}.

(** How a call ends: it returns, an [assert] or [DCHECK] aborts, the
    behaviour is undefined (null handle, deleted object, signed overflow), or
    the evaluation below ran out of fuel. *)
Inductive Outcome (A : Type) : Type :=
| Done (a : A)
| AssertionFailed
| Undefined
| OutOfFuel.

Arguments AssertionFailed {A}.
Arguments Undefined {A}.
Arguments OutOfFuel {A}.

Definition bind {A B : Type} (o : Outcome A) (k : A -> Outcome B) : Outcome B :=
  match o with
  | Done a => k a
  | AssertionFailed => AssertionFailed
  | Undefined => Undefined
  | OutOfFuel => OutOfFuel
  end.

Definition set_func_ (f : option Func) (w : World) : World :=
  {| cell := {| func_ := f;
                keepAliveCount_ := keepAliveCount_ (cell w);
                state_ := state_ (cell w);
                executorKeepAlive_ := executorKeepAlive_ (cell w) |};
     trace := trace w |}.

Definition set_state_ (s : State) (w : World) : World :=
  {| cell := {| func_ := func_ (cell w);
                keepAliveCount_ := keepAliveCount_ (cell w);
                state_ := s;
                executorKeepAlive_ := executorKeepAlive_ (cell w) |};
     trace := trace w |}.

Definition set_executorKeepAlive_ (e : option Executor) (w : World) : World :=
  {| cell := {| func_ := func_ (cell w);
                keepAliveCount_ := keepAliveCount_ (cell w);
                state_ := state_ (cell w);
                executorKeepAlive_ := e |};
     trace := trace w |}.

Definition emit (e : Event) (w : World) : World :=
  {| cell := cell w; trace := trace w ++ [e] |}.

(** [state_.compare_exchange_strong(expected, desired)]. *)
Definition compare_exchange_strong (expected desired : State) (w : World)
  : bool * World :=
  if State_eqb (state_ (cell w)) expected
  then (true, set_state_ desired w)
  else (false, w).

Section Methods.

(** What calling a work item does to the world.  The methods are written
    over it, and [invoke] below closes the loop. *)
Variable call : Func -> World -> Outcome World.

(** [Executor::add] of the outside executor [e]. *)
Definition Executor_add (e : Executor) (f : Func) (w : World)
  : Outcome World :=
  let w1 := emit (Submitted e f (state_ (cell w))) w in
  if exec_inline e then call f w1 else Done w1.

(** [enqueueWork]: [DCHECK(func_)], store [RUNNING], then hand the work,
    moved out of [func_], to the executor. *)
Definition enqueueWork_with (w : World) : Outcome World :=
  match func_ (cell w) with
  | None => AssertionFailed
  | Some f =>
      let w1 := set_state_ RUNNING w in
      match executorKeepAlive_ (cell w1) with
      | None => Undefined
      | Some e => Executor_add e f (set_func_ None w1)
      end
  end.

(** [add]. *)
Definition add_with (func : Func) (w : World) : Outcome World :=
  match func_ (cell w) with
  | Some _ => AssertionFailed
  | None =>
      if State_eqb (state_ (cell w)) RUNNING
      then call func w
      else
        let w1 := set_func_ (Some func) w in
        if State_eqb (state_ (cell w1)) NEW
        then
          let (swapped, w2) := compare_exchange_strong NEW HAS_CALLBACK w1 in
          if swapped then Done w2 else enqueueWork_with w2
        else enqueueWork_with w1
  end.

(** [setExecutor]. *)
Definition setExecutor_with (exec : Executor) (w : World) : Outcome World :=
  let w1 := set_executorKeepAlive_ (Some exec) w in
  if State_eqb (state_ (cell w1)) NEW
  then
    let (swapped, w2) := compare_exchange_strong NEW HAS_EXECUTOR w1 in
    if swapped then Done w2 else enqueueWork_with w2
  else enqueueWork_with w1.

Fixpoint add_each (fs : list Func) (w : World) : Outcome World :=
  match fs with
  | [] => Done w
  | f :: fs' => bind (add_with f w) (add_each fs')
  end.

End Methods.

(** Running a work item: it is entered, then makes its calls to [add]. *)
Fixpoint invoke (fuel : nat) (f : Func) (w : World) : Outcome World :=
  match fuel with
  | O => OutOfFuel
  | S fuel' =>
      match f with
      | MkFunc _ reenter =>
          add_each (invoke fuel') reenter (emit (Invoked f) w)
      end
  end.

Definition add (fuel : nat) : Func -> World -> Outcome World :=
  add_with (invoke fuel).

Definition setExecutor (fuel : nat) : Executor -> World -> Outcome World :=
  setExecutor_with (invoke fuel).

Definition enqueueWork (fuel : nat) : World -> Outcome World :=
  enqueueWork_with (invoke fuel).

(** The nesting depth of a work item, and the calls running it makes when
    every [add] in it runs its argument on the spot. *)
Fixpoint depth (f : Func) : nat :=
  match f with
  | MkFunc _ reenter => S (list_max (map depth reenter))
  end.

Fixpoint invocations (f : Func) : list Event :=
  match f with
  | MkFunc _ reenter => Invoked f :: flat_map invocations reenter
  end.

(** The submissions recorded in a trace. *)
Definition is_Submitted (e : Event) : bool :=
  match e with
  | Submitted _ _ _ => true
  | Invoked _ => false
  end.

Definition submissions (t : list Event) : list Event :=
  filter is_Submitted t.

(** The cell [create] returns, as [add] and [setExecutor] find it. *)
Definition created : DeferredExecutor :=
  {| func_ := None;
     keepAliveCount_ := 1%Z;
     state_ := NEW;
     executorKeepAlive_ := None |}.

(** The worlds a cell can be in between calls: it was created, and then
    [add] and [setExecutor] were called on it and returned, while tokens on
    it were taken and dropped. *)
Inductive reachable : World -> Prop :=
| reachable_created :
    reachable {| cell := created; trace := [] |}
| reachable_add : forall fuel f w w',
    reachable w -> add fuel f w = Done w' -> reachable w'
| reachable_setExecutor : forall fuel e w w',
    reachable w -> setExecutor fuel e w = Done w' -> reachable w'
| reachable_token : forall n w,
    reachable w ->
    reachable {| cell := {| func_ := func_ (cell w);
                            keepAliveCount_ := n;
                            state_ := state_ (cell w);
                            executorKeepAlive_ := executorKeepAlive_ (cell w) |};
                 trace := trace w |}.

(** Every submission in the trace was made with [state_] at [RUNNING]. *)
Definition submitted_running (ev : Event) : Prop :=
  match ev with
  | Submitted _ _ st => st = RUNNING
  | Invoked _ => True
  end.

(** [call] runs [g] on the spot in a running cell: the cell is as before,
    and the trace grows by the invocations of [g]. *)
Definition runs_inline (call : Func -> World -> Outcome World) (g : Func)
  : Prop :=
  forall w,
    state_ (cell w) = RUNNING ->
    func_ (cell w) = None ->
    call g w = Done {| cell := cell w; trace := trace w ++ invocations g |}.

(** Whatever the fuel, a run that returns in a running cell is the run on
    the spot. *)
Definition returns_inline (call : Func -> World -> Outcome World) (g : Func)
  : Prop :=
  forall w w',
    state_ (cell w) = RUNNING ->
    func_ (cell w) = None ->
    call g w = Done w' ->
    w' = {| cell := cell w; trace := trace w ++ invocations g |}.

(** How far a cell has come: nothing attached, one of the two, both. *)
Definition stage (s : State) : nat :=
  match s with
  | NEW => 0
  | HAS_EXECUTOR => 1
  | HAS_CALLBACK => 1
  | RUNNING => 2
  end.

(** What a cell holds and has done, by its state. *)
Definition shape (w : World) : Prop :=
  match state_ (cell w) with
  | NEW =>
      func_ (cell w) = None /\
      executorKeepAlive_ (cell w) = None /\
      trace w = []
  | HAS_EXECUTOR =>
      func_ (cell w) = None /\
      executorKeepAlive_ (cell w) <> None /\
      trace w = []
  | HAS_CALLBACK =>
      func_ (cell w) <> None /\
      executorKeepAlive_ (cell w) = None /\
      trace w = []
  | RUNNING =>
      func_ (cell w) = None /\
      exists e f invs,
        executorKeepAlive_ (cell w) = Some e /\
        trace w = Submitted e f RUNNING :: invs /\
        submissions invs = []
  end.

(* ================================================================= *)
(** * Part III.  Keep-alive tokens and the life of the cell           *)
(* ================================================================= *)

(** [keepAliveCount_] is an [ssize_t]; going past either end of its range
    is undefined. *)
Definition SSIZE_MAX : Z := (2 ^ 63 - 1)%Z.
Definition SSIZE_MIN : Z := (- 2 ^ 63)%Z.

Definition set_keepAliveCount_ (n : Z) (d : DeferredExecutor)
  : DeferredExecutor :=
  {| func_ := func_ d;
     keepAliveCount_ := n;
     state_ := state_ d;
     executorKeepAlive_ := executorKeepAlive_ d |}.

(** The storage [create] allocates: the object, until [delete this], and
    how many times it has been deleted. *)
Record Heap : Type := mk_Heap {
  object : option DeferredExecutor;
  deletions : nat
}.

(** [keepAliveAcquire]: [++keepAliveCount_]. *)
Definition keepAliveAcquire (h : Heap) : Outcome Heap :=
  match object h with
  | None => Undefined
  | Some d =>
      if (keepAliveCount_ d <? SSIZE_MAX)%Z
      then Done {| object := Some (set_keepAliveCount_ (keepAliveCount_ d + 1)%Z d);
                   deletions := deletions h |}
      else Undefined
  end.

(** [getKeepAliveToken]: [keepAliveAcquire()], then a handle on [this]. *)
Definition getKeepAliveToken (h : Heap) : Outcome Heap := keepAliveAcquire h.

(** [releaseAndTryFree]: [--keepAliveCount_], and [delete this] at zero. *)
Definition releaseAndTryFree (h : Heap) : Outcome Heap :=
  match object h with
  | None => Undefined
  | Some d =>
      if (SSIZE_MIN <? keepAliveCount_ d)%Z
      then
        let d1 := set_keepAliveCount_ (keepAliveCount_ d - 1)%Z d in
        if (keepAliveCount_ d1 =? 0)%Z
        then Done {| object := None; deletions := S (deletions h) |}
        else Done {| object := Some d1; deletions := deletions h |}
      else Undefined
  end.

(** [keepAliveRelease], which the destructor of a token calls. *)
Definition keepAliveRelease (h : Heap) : Outcome Heap := releaseAndTryFree h.

(** The default member initialisers, and [create]: a new object, one token
    taken on it, and the owning pointer released. *)
Definition DeferredExecutor_default : DeferredExecutor :=
  {| func_ := None;
     keepAliveCount_ := 0%Z;
     state_ := NEW;
     executorKeepAlive_ := None |}.

Definition create : Outcome Heap :=
  getKeepAliveToken {| object := Some DeferredExecutor_default; deletions := 0 |}.

(** A holder of the cell either takes one more token or drops one. *)
Inductive TokenCall : Type :=
| AcquireToken
| ReleaseToken.

Definition token_call (c : TokenCall) (h : Heap) : Outcome Heap :=
  match c with
  | AcquireToken => getKeepAliveToken h
  | ReleaseToken => keepAliveRelease h
  end.

Fixpoint token_calls (cs : list TokenCall) (h : Heap) : Outcome Heap :=
  match cs with
  | [] => Done h
  | c :: cs' => bind (token_call c h) (token_calls cs')
  end.

(** The tokens outstanding after [create] and the calls [cs]: the one
    [create] returned, plus those taken, less those dropped. *)
Definition token_delta (c : TokenCall) : Z :=
  match c with
  | AcquireToken => 1%Z
  | ReleaseToken => (-1)%Z
  end.

Fixpoint net (cs : list TokenCall) : Z :=
  match cs with
  | [] => 0%Z
  | c :: cs' => (token_delta c + net cs')%Z
  end.

Definition outstanding (cs : list TokenCall) : Z := (1 + net cs)%Z.

(* ================================================================= *)
(** * Part IV.  [DeferredWorkWrapper] and [wrap]                      *)
(* ================================================================= *)

(** How the closure is passed to [wrap]: as an lvalue (a named closure) or
    as an rvalue (a temporary, or a closure under [std::move]). *)
Inductive ValueCategory : Type :=
| Lvalue
| Rvalue.

Section Wrapper.

(** Tokens ([Executor::KeepAlive]) and run-time values are opaque here. *)
Variables KeepAlive Value : Type.

(** A closure type [F] as [wrap] sees it: the signature
    [decltype(&F::operator())], a member function of [F] taking [Args...]
    and returning [R], with or without [const], and what a call
    computes. *)
Record Closure : Type := mk_Closure {
  closure_Args : list Ty;
  closure_R : Ty;
  closure_const : bool;
  closure_call : list Value -> Value
}.

(** The partial specialisation of [DeferredWorkWrapper] for an [F] with a
    [const] call operator. *)
Record DeferredWorkWrapper : Type := mk_DeferredWorkWrapper {
  a : KeepAlive;
  func : Closure
}.

(** [wrap(keepAlive, func)], for a closure of class type [L] passed with
    value category [cat].  [func] is a forwarding reference [F&&]:
    - from an lvalue, [F] is deduced as [L&], and the return type's
      [decltype(&F::operator())] is ill-formed, a reference type having no
      members: no [wrap] is viable and the call does not compile ([None]);
    - from an rvalue, [F] is deduced as [L].  Only the partial specialisation
      for a [const] call operator is defined; for any other [L] the return
      type is incomplete and the call does not compile ([None]). *)
Definition wrap (keepAlive : KeepAlive) (cat : ValueCategory) (f : Closure)
  : option DeferredWorkWrapper :=
  match cat with
  | Lvalue => None
  | Rvalue =>
      if closure_const f
      then Some {| a := keepAlive; func := f |}
      else None
  end.

(** The parameter list and return type of the wrapper's [operator()]. *)
Definition wrapper_Args (w : DeferredWorkWrapper) : list Ty :=
  closure_Args (func w).

Definition wrapper_R (w : DeferredWorkWrapper) : Ty :=
  closure_R (func w).


End Wrapper.

(** The signatures [Extract] reads off a closure type, through
    [decltype(&L::operator())], and off the wrapper made of it, whose call
    operator is not [const]. *)
Definition closure_signature (Value : Type) (f : Closure Value) : Signature :=
  {| sig_shape := if closure_const f then ConstMemberFunction else MemberFunction;
     sig_R := closure_R f;
     sig_Args := closure_Args f |}.

Definition wrapper_signature (KeepAlive Value : Type)
           (w : DeferredWorkWrapper KeepAlive Value) : Signature :=
  {| sig_shape := MemberFunction;
     sig_R := wrapper_R w;
     sig_Args := wrapper_Args w |}.

(* ================================================================= *)
(** * Part V.  [add] against [setExecutor], two threads               *)
(* ================================================================= *)

(** The two methods are cut at every access to a member of the cell, so
    that a thread makes one access per step and the other thread may run
    between any two of them.  The accesses to [state_] are sequentially
    consistent atomics, as [load], [store] and [compare_exchange_strong]
    with no memory order argument are. *)
Inductive Pc : Type :=
| AtAssert          (** add: [assert(!func_)] *)
| AtLoadRunning     (** add: [state_.load() == State::RUNNING] *)
| AtCall            (** add: [func(); return;] *)
| AtStoreFunc       (** add: [func_ = std::move(func)] *)
| AtStoreExecutor   (** setExecutor: [executorKeepAlive_ = ...] *)
| AtLoadNew         (** both: [state_.load() == expected] *)
| AtCas             (** both: [state_.compare_exchange_strong(...)] *)
| AtDCheck          (** enqueueWork: [DCHECK(func_)] *)
| AtStoreRunning    (** enqueueWork: [state_.store(State::RUNNING)] *)
| AtSubmit          (** enqueueWork: [executorKeepAlive_.get()->add(...)] *)
| Returned.

(** The call a thread is making. *)
Inductive Method : Type :=
| CallAdd (func : Func)
| CallSetExecutor (exec : Executor).

Definition entry (meth : Method) : Pc :=
  match meth with
  | CallAdd _ => AtAssert
  | CallSetExecutor _ => AtStoreExecutor
  end.

(** The state the method asks the compare-and-swap to install. *)
Definition desired (meth : Method) : State :=
  match meth with
  | CallAdd _ => HAS_CALLBACK
  | CallSetExecutor _ => HAS_EXECUTOR
  end.

Section Threads.

Variable call : Func -> World -> Outcome World.

(** One step of a thread inside [meth], at [pc]. *)
Definition thread_step (meth : Method) (pc : Pc) (w : World)
  : Outcome (Pc * World) :=
  match pc, meth with
  | AtAssert, CallAdd _ =>
      match func_ (cell w) with
      | Some _ => AssertionFailed
      | None => Done (AtLoadRunning, w)
      end
  | AtLoadRunning, CallAdd _ =>
      if State_eqb (state_ (cell w)) RUNNING
      then Done (AtCall, w)
      else Done (AtStoreFunc, w)
  | AtCall, CallAdd func =>
      bind (call func w) (fun w' => Done (Returned, w'))
  | AtStoreFunc, CallAdd func =>
      Done (AtLoadNew, set_func_ (Some func) w)
  | AtStoreExecutor, CallSetExecutor exec =>
      Done (AtLoadNew, set_executorKeepAlive_ (Some exec) w)
  | AtLoadNew, _ =>
      if State_eqb (state_ (cell w)) NEW
      then Done (AtCas, w)
      else Done (AtDCheck, w)
  | AtCas, _ =>
      let (swapped, w') := compare_exchange_strong NEW (desired meth) w in
      if swapped then Done (Returned, w') else Done (AtDCheck, w')
  | AtDCheck, _ =>
      match func_ (cell w) with
      | None => AssertionFailed
      | Some _ => Done (AtStoreRunning, w)
      end
  | AtStoreRunning, _ =>
      Done (AtSubmit, set_state_ RUNNING w)
  | AtSubmit, _ =>
      (* a null executor handle is dereferenced; [func_] was checked by
         [DCHECK] two steps before, and handing an empty function to the
         executor is not followed further *)
      match executorKeepAlive_ (cell w), func_ (cell w) with
      | Some e, Some f =>
          bind (Executor_add call e f (set_func_ None w))
               (fun w' => Done (Returned, w'))
      | _, _ => Undefined
      end
  | _, _ => Done (pc, w)
  end.

(** A thread running by itself for [n] steps. *)
Fixpoint thread_run (n : nat) (meth : Method) (pc : Pc) (w : World)
  : Outcome (Pc * World) :=
  match n with
  | O => Done (pc, w)
  | S n' =>
      bind (thread_step meth pc w)
           (fun pw => thread_run n' meth (fst pw) (snd pw))
  end.

(** The method a call stands for, run in one piece. *)
Definition method_with (meth : Method) (w : World) : Outcome World :=
  match meth with
  | CallAdd func => add_with call func w
  | CallSetExecutor exec => setExecutor_with call exec w
  end.

(** The two threads of the race. *)
Inductive Tid : Type :=
| Adder
| Setter.

(** The cell they share, where each thread is, and a record of which
    threads had their compare-and-swap succeed and which handed the work
    to the executor. *)
Record Machine : Type := mk_Machine {
  shared : World;
  pc_adder : Pc;
  pc_setter : Pc;
  cas_won : list Tid;
  submitted_by : list Tid
}.

Variable func : Func.
Variable exec : Executor.

Definition method_of (t : Tid) : Method :=
  match t with
  | Adder => CallAdd func
  | Setter => CallSetExecutor exec
  end.

Definition pc_of (t : Tid) (m : Machine) : Pc :=
  match t with
  | Adder => pc_adder m
  | Setter => pc_setter m
  end.

Definition Pc_eqb (p q : Pc) : bool :=
  match p, q with
  | AtAssert, AtAssert | AtLoadRunning, AtLoadRunning | AtCall, AtCall
  | AtStoreFunc, AtStoreFunc | AtStoreExecutor, AtStoreExecutor
  | AtLoadNew, AtLoadNew | AtCas, AtCas | AtDCheck, AtDCheck
  | AtStoreRunning, AtStoreRunning | AtSubmit, AtSubmit
  | Returned, Returned => true
  | _, _ => false
  end.

(** Thread [t] takes its next step. *)
Definition machine_step (t : Tid) (m : Machine) : Outcome Machine :=
  let pc := pc_of t m in
  bind (thread_step (method_of t) pc (shared m))
       (fun pw =>
          let pc' := fst pw in
          Done {| shared := snd pw;
                  pc_adder := match t with Adder => pc' | Setter => pc_adder m end;
                  pc_setter := match t with Adder => pc_setter m | Setter => pc' end;
                  cas_won :=
                    if Pc_eqb pc AtCas && Pc_eqb pc' Returned
                    then cas_won m ++ [t] else cas_won m;
                  submitted_by :=
                    if Pc_eqb pc AtSubmit && Pc_eqb pc' Returned
                    then submitted_by m ++ [t] else submitted_by m |}).

(** An interleaving is the order in which the threads take their steps. *)
Fixpoint machine_run (sched : list Tid) (m : Machine) : Outcome Machine :=
  match sched with
  | [] => Done m
  | t :: sched' => bind (machine_step t m) (machine_run sched')
  end.

(** Both calls are about to start on the cell [w]. *)
Definition machine_init (w : World) : Machine :=
  {| shared := w;
     pc_adder := entry (CallAdd func);
     pc_setter := entry (CallSetExecutor exec);
     cas_won := [];
     submitted_by := [] |}.

Definition finished (m : Machine) : bool :=
  Pc_eqb (pc_adder m) Returned && Pc_eqb (pc_setter m) Returned.

End Threads.

(** The steps a thread still has to take, at most. *)
Definition steps_left (pc : Pc) : nat :=
  match pc with
  | AtAssert => 8
  | AtLoadRunning => 7
  | AtStoreFunc => 6
  | AtStoreExecutor => 6
  | AtLoadNew => 5
  | AtCas => 4
  | AtDCheck => 3
  | AtStoreRunning => 2
  | AtSubmit => 1
  | AtCall => 1
  | Returned => 0
  end.

Definition Tid_eqb (s t : Tid) : bool :=
  match s, t with
  | Adder, Adder | Setter, Setter => true
  | _, _ => false
  end.

Definition steps_of (t : Tid) (sched : list Tid) : nat :=
  length (filter (Tid_eqb t) sched).

(** ** The invariant of the race *)

Definition other (t : Tid) : Tid :=
  match t with
  | Adder => Setter
  | Setter => Adder
  end.

(** Where a thread can be before its compare-and-swap, and where it can be
    once the other thread's has succeeded. *)
Definition before_cas (t : Tid) (pc : Pc) : bool :=
  match t, pc with
  | Adder, (AtAssert | AtLoadRunning | AtStoreFunc | AtLoadNew | AtCas) => true
  | Setter, (AtStoreExecutor | AtLoadNew | AtCas) => true
  | _, _ => false
  end.

Definition before_store (t : Tid) (pc : Pc) : bool :=
  match pc with
  | AtDCheck | AtStoreRunning => true
  | _ => before_cas t pc
  end.

Section RaceInvariant.

Variable w0 : World.
Variable func : Func.
Variable exec : Executor.

(** What [func_] and [executorKeepAlive_] hold, by how far the thread that
    writes them has come. *)
Definition func_at (pc : Pc) : option Func :=
  match pc with
  | AtAssert | AtLoadRunning | AtStoreFunc => None
  | _ => Some func
  end.

Definition executor_at (pc : Pc) : option Executor :=
  match pc with
  | AtStoreExecutor => executorKeepAlive_ (cell w0)
  | _ => Some exec
  end.

Definition submitted_trace : list Event :=
  trace w0 ++ Submitted exec func RUNNING
           :: (if exec_inline exec then invocations func else []).

Inductive race_invariant (m : Machine) : Prop :=
| racing :
    state_ (cell (shared m)) = NEW ->
    before_cas Adder (pc_adder m) = true ->
    before_cas Setter (pc_setter m) = true ->
    func_ (cell (shared m)) = func_at (pc_adder m) ->
    executorKeepAlive_ (cell (shared m)) = executor_at (pc_setter m) ->
    trace (shared m) = trace w0 ->
    cas_won m = [] ->
    submitted_by m = [] ->
    race_invariant m
| won (t : Tid) :
    state_ (cell (shared m)) = desired (method_of func exec t) ->
    pc_of t m = Returned ->
    before_store (other t) (pc_of (other t) m) = true ->
    func_ (cell (shared m)) = func_at (pc_adder m) ->
    executorKeepAlive_ (cell (shared m)) = executor_at (pc_setter m) ->
    trace (shared m) = trace w0 ->
    cas_won m = [t] ->
    submitted_by m = [] ->
    race_invariant m
| submitting (t : Tid) :
    state_ (cell (shared m)) = RUNNING ->
    pc_of t m = Returned ->
    pc_of (other t) m = AtSubmit ->
    func_ (cell (shared m)) = Some func ->
    executorKeepAlive_ (cell (shared m)) = Some exec ->
    trace (shared m) = trace w0 ->
    cas_won m = [t] ->
    submitted_by m = [] ->
    race_invariant m
| submitted (t : Tid) :
    state_ (cell (shared m)) = RUNNING ->
    pc_adder m = Returned ->
    pc_setter m = Returned ->
    func_ (cell (shared m)) = None ->
    executorKeepAlive_ (cell (shared m)) = Some exec ->
    trace (shared m) = submitted_trace ->
    cas_won m = [t] ->
    submitted_by m = [other t] ->
    race_invariant m.

End RaceInvariant.

(** ** Accesses to the members that are not atomic

    [func_] and [executorKeepAlive_] are plain members.  A step reads or
    writes them as follows; moving out of [func_] both reads and writes
    it. *)
Inductive Member : Type :=
| Member_func_
| Member_executorKeepAlive_.

Inductive Access : Type :=
| Reads (x : Member)
| Writes (x : Member).

Definition accesses (pc : Pc) : list Access :=
  match pc with
  | AtAssert | AtDCheck => [Reads Member_func_]
  | AtStoreFunc => [Writes Member_func_]
  | AtStoreExecutor => [Writes Member_executorKeepAlive_]
  | AtSubmit => [Reads Member_executorKeepAlive_; Writes Member_func_]
  | _ => []
  end.

Definition Member_eqb (x y : Member) : bool :=
  match x, y with
  | Member_func_, Member_func_ => true
  | Member_executorKeepAlive_, Member_executorKeepAlive_ => true
  | _, _ => false
  end.

(** Two accesses conflict when they are to the same member and one of them
    writes it. *)
Definition conflict (a b : Access) : bool :=
  match a, b with
  | Reads _, Reads _ => false
  | Reads x, Writes y | Writes x, Reads y | Writes x, Writes y => Member_eqb x y
  end.

(** The next steps of the two threads conflict. *)
Definition conflicting (m : Machine) : bool :=
  existsb (fun a => existsb (conflict a) (accesses (pc_setter m)))
          (accesses (pc_adder m)).

(* ================================================================= *)
(** * Sample inputs                                                   *)
(* ================================================================= *)

Fixpoint Ty_eqb (s t : Ty) : bool :=
  match s, t with
  | TVoid, TVoid | TUnit, TUnit | TBool, TBool | TInt, TInt
  | TString, TString => true
  | TClass m, TClass n => Nat.eqb m n
  | TFuture s', TFuture t' => Ty_eqb s' t'
  | TSemiFuture s', TSemiFuture t' => Ty_eqb s' t'
  | TTry s', TTry t' => Ty_eqb s' t'
  | _, _ => false
  end.

(** A callable declared with no parameter, returning [R]. *)
Definition nullary (R : Ty) : Callable :=
  fun args =>
    match args with
    | [] => Some R
    | _ => None
    end.

(** A callable declared with one parameter [P&], returning [R]: it binds
    to an lvalue of [P] only. *)
Definition by_lvalue_ref (P R : Ty) : Callable :=
  fun args =>
    match args with
    | [LvalueRef t] => if Ty_eqb t P then Some R else None
    | _ => None
    end.

(** A callable declared with two parameters. *)
Definition binary (R : Ty) : Callable :=
  fun args =>
    match args with
    | [_; _] => Some R
    | _ => None
    end.

(** A callable declared with one parameter [P&&], returning [R]: it binds
    to an rvalue of [P] only. *)
Definition by_rvalue_ref (P R : Ty) : Callable :=
  fun args =>
    match args with
    | [RvalueRef t] => if Ty_eqb t P then Some R else None
    | _ => None
    end.

(** A work item that, when run, hands one more work item to the cell. *)
Definition inner_work : Func := MkFunc 8 [].
Definition reentrant_work : Func := MkFunc 7 [inner_work].

Definition inline_executor : Executor :=
  {| exec_tag := 3; exec_inline := true |}.
Definition queue_executor : Executor :=
  {| exec_tag := 4; exec_inline := false |}.

(** The world right after [create]. *)
Definition new_world : World := {| cell := created; trace := [] |}.

(** The world after [setExecutor(queue_executor)] and [add(inner_work)]. *)
Definition running_world : World :=
  {| cell := {| func_ := None;
                keepAliveCount_ := 1%Z;
                state_ := RUNNING;
                executorKeepAlive_ := Some queue_executor |};
     trace := [Submitted queue_executor inner_work RUNNING] |}.

(** An interleaving in which the setter's compare-and-swap comes between
    the adder's load of [state_] and its own compare-and-swap. *)
Definition sample_schedule : list Tid :=
  [Adder; Setter; Adder; Setter; Adder; Adder; Setter;
   Adder; Setter; Adder; Setter; Adder; Setter; Adder].

(** A closure with one parameter, [Try<int>], and a [const] call operator,
    over numbers as values; and one with no parameter. *)
Definition unary_closure : Closure nat :=
  {| closure_Args := [TTry TInt];
     closure_R := TBool;
     closure_const := true;
     closure_call := fun args => S (hd 0 args) |}.



(* ================================================================= *)
(** * Theorems, Part I: the resolver                                  *)
(* ================================================================= *)

Lemma callableWith_true (F : Callable) (Args : list ArgTy) :
  callableWith F Args = true -> exists R, resultOf F Args = Some R.
Proof.
  unfold callableWith. destruct (resultOf F Args) as [R|]; [eauto | discriminate].
Qed.

Lemma callableWith_false (F : Callable) (Args : list ArgTy) :
  callableWith F Args = false -> resultOf F Args = None.
Proof.
  unfold callableWith. destruct (resultOf F Args); [discriminate | reflexivity].
Qed.

(** The nested conditional is the scan of [form_order]. *)
Lemma callableResult_Arg_first_match (T : Ty) (F : Callable) :
  match first_match T F with
  | Some f =>
      callableWith F (form_Args T f) = true /\
      callableResult_Arg T F = mk_argResult (form_isTry f) F (form_Args T f)
  | None =>
      Result (callableResult_Arg T F) = None
  end.
Proof.
  unfold first_match, callableResult_Arg, form_order, find; cbn [form_Args].
  destruct (callableWith F []) eqn:E0; [now split|].
  destruct (callableWith F [RvalueRef T]) eqn:E1; [now split|].
  destruct (callableWith F [LvalueRef T]) eqn:E2; [now split|].
  destruct (callableWith F [RvalueRef (TTry T)]) eqn:E3; [now split|].
  destruct (callableWith F [LvalueRef (TTry T)]) eqn:E4; [now split|].
  unfold Result; cbn. now apply callableWith_false.
Qed.

(** C3.  For a value type [T] that references can be formed to (any but
    [void], at which [callableResult] cannot be instantiated), the calling
    form [callableResult<T, F>] selects is the first, in the order no
    arguments, [T&&], [T&], [Try<T>&&], [Try<T>&], that [F] can be called
    with; the instantiation fails when there is none; and a callable that can
    be called with no arguments, composed onto an [int], gets the
    value-discarding form, whatever else it accepts. *)
Theorem callableResult_resolution_order :
  forall (Lift : Ty -> Ty) (T : Ty) (F : Callable),
    (forall f,
        referenceable T = true ->
        first_match T F = Some f ->
        exists r,
          callableResult Lift T F = Some r /\
          Arg r = mk_argResult (form_isTry f) F (form_Args T f)) /\
    (first_match T F = None -> callableResult Lift T F = None) /\
    (callableWith F [] = true ->
     first_match TInt F = Some ValueDiscarding /\
     exists r,
       callableResult Lift TInt F = Some r /\
       Arg r = mk_argResult false F []).
Proof.
  intros Lift T F.
  assert (Hsome : forall T' f,
             first_match T' F = Some f ->
             exists r,
               callableResult Lift T' F = Some r /\
               Arg r = mk_argResult (form_isTry f) F (form_Args T' f)).
  { intros T' f Ef.
    pose proof (callableResult_Arg_first_match T' F) as H. rewrite Ef in H.
    destruct H as [Hc Ha].
    destruct (callableWith_true _ _ Hc) as [R HR].
    unfold callableResult. rewrite Ha. unfold Result; cbn [arg_F arg_Args].
    rewrite HR. eexists; split; reflexivity. }
  split; [intros f _; exact (Hsome T f)|]. split.
  - intro En. pose proof (callableResult_Arg_first_match T F) as H.
    rewrite En in H. unfold callableResult. now rewrite H.
  - intro H0.
    assert (Ef : first_match TInt F = Some ValueDiscarding).
    { unfold first_match, form_order, find. cbn [form_Args]. now rewrite H0. }
    split; [exact Ef|]. exact (Hsome TInt ValueDiscarding Ef).
Qed.

(** A callable with no parameter, composed onto an [int]; and one taking
    [Try<string>&], composed onto a string. *)
Lemma callableResult_resolution_order_witness :
  (first_match TInt (nullary TString) = Some ValueDiscarding /\
   exists r,
     callableResult UnitLift TInt (nullary TString) = Some r /\
     Arg r = mk_argResult false (nullary TString) []) /\
  (exists r,
     callableResult UnitLift TString (by_lvalue_ref (TTry TString) TInt) = Some r /\
     Arg r = mk_argResult true (by_lvalue_ref (TTry TString) TInt)
                          [LvalueRef (TTry TString)]).
Proof.
  split.
  - apply (callableResult_resolution_order UnitLift TInt (nullary TString)).
    reflexivity.
  - apply (proj1 (callableResult_resolution_order UnitLift TString
                    (by_lvalue_ref (TTry TString) TInt))
             WrappedByReference); reflexivity.
Defined.

(** The other concrete cases of the specification: a callable taking
    [Try<string>&] resolves to the wrapped-by-reference form, and one that
    needs two arguments does not resolve. *)
Example resolve_wrapped_by_reference :
  first_match TString (by_lvalue_ref (TTry TString) TInt)
  = Some WrappedByReference.
Proof. reflexivity. Qed.

Example resolve_two_arguments_fails :
  callableResult UnitLift TInt (binary TInt) = None.
Proof. reflexivity. Qed.

Lemma Ty_not_own_Future (U : Ty) : U <> TFuture U.
Proof.
  induction U; try discriminate. intros [= H]. exact (IHU H).
Qed.

Lemma Ty_not_own_SemiFuture (U : Ty) : U <> TSemiFuture U.
Proof.
  induction U; try discriminate. intros [= H]. exact (IHU H).
Qed.

(** C4.  When the call selected for [F] returns an [R] that is [Future<U>]
    or [SemiFuture<U>], [callableResult<T, F>] is well-formed, recognises [R]
    as asynchronous and has [Return = Future<U>]: the ordinary flavour in
    both cases, and one level less than [Future<R>]. *)
Theorem callableResult_flattens :
  forall (Lift : Ty -> Ty) (T : Ty) (F : Callable) (R U : Ty),
    Result (callableResult_Arg T F) = Some R ->
    R = TFuture U \/ R = TSemiFuture U ->
    exists r,
      callableResult Lift T F = Some r /\
      value (ReturnsFuture r) = true /\
      Inner (ReturnsFuture r) = U /\
      cr_Return r = TFuture U /\
      cr_Return r <> TFuture R.
Proof.
  intros Lift T F R U HR HU. unfold callableResult. rewrite HR.
  eexists; split; [reflexivity|].
  destruct HU as [-> | ->]; cbn; repeat split; intros [= H].
  - exact (Ty_not_own_Future H).
  - exact (Ty_not_own_SemiFuture H).
Qed.

(** A continuation returning [Future<bool>], and one returning
    [SemiFuture<bool>], composed onto a string: the outer type is
    [Future<bool>], not [Future<Future<bool>>]. *)
Lemma callableResult_flattens_witness :
  (exists r,
     callableResult UnitLift TString (nullary (TFuture TBool)) = Some r /\
     cr_Return r = TFuture TBool) /\
  (exists r,
     callableResult UnitLift TString (nullary (TSemiFuture TBool)) = Some r /\
     cr_Return r = TFuture TBool).
Proof.
  split.
  - destruct (@callableResult_flattens UnitLift TString
                (nullary (TFuture TBool)) (TFuture TBool) TBool)
      as [r [Hr [_ [_ [HR _]]]]]; [reflexivity | left; reflexivity |].
    exists r; split; assumption.
  - destruct (@callableResult_flattens UnitLift TString
                (nullary (TSemiFuture TBool)) (TSemiFuture TBool) TBool)
      as [r [Hr [_ [_ [HR _]]]]]; [reflexivity | right; reflexivity |].
    exists r; split; assumption.
Defined.

(** C8, as stated, fails at [R = void]: a continuation returning
    [void] composes to [Future<Unit>], because the primary template lifts
    the return type through [Unit::Lift] before wrapping it. *)
Lemma callableResult_void_is_lifted :
  exists r,
    callableResult UnitLift TInt (nullary TVoid) = Some r /\
    Result (Arg r) = Some TVoid /\
    value (ReturnsFuture r) = false /\
    cr_Return r = TFuture TUnit /\
    cr_Return r <> TFuture TVoid.
Proof.
  eexists; split; [reflexivity|]. cbn. repeat split; discriminate.
Qed.

(** C8, amended.  When the call selected for [F] returns an [R] that is
    neither [Future<U>] nor [SemiFuture<U>], [callableResult<T, F>::Return]
    is [Future<Unit::Lift<R>>]: [Future<R>] itself for every [R] but [void],
    and [Future<Unit>] for [void]. *)
Theorem callableResult_wraps_lifted :
  forall (T : Ty) (F : Callable) (R : Ty),
    Result (callableResult_Arg T F) = Some R ->
    (forall U, R <> TFuture U) ->
    (forall U, R <> TSemiFuture U) ->
    exists r,
      callableResult UnitLift T F = Some r /\
      value (ReturnsFuture r) = false /\
      cr_Return r = TFuture (UnitLift R) /\
      (R <> TVoid -> cr_Return r = TFuture R) /\
      (R = TVoid -> cr_Return r = TFuture TUnit).
Proof.
  intros T F R HR HF HS. unfold callableResult. rewrite HR.
  eexists; split; [reflexivity|].
  destruct R; cbn; repeat split; auto; try congruence.
Qed.

Lemma callableResult_wraps_lifted_witness :
  exists r,
    callableResult UnitLift TInt (nullary TString) = Some r /\
    cr_Return r = TFuture TString.
Proof.
  destruct (@callableResult_wraps_lifted TInt (nullary TString) TString)
    as [r [Hr [_ [_ [HR _]]]]];
    [reflexivity | discriminate | discriminate |].
  exists r; split; [exact Hr | apply HR; discriminate].
Defined.

(* ================================================================= *)
(** * Theorems, Part II: the cell on one thread                       *)
(* ================================================================= *)

(** ** Work that runs while the cell is [RUNNING] *)

Lemma add_with_running call g w :
  runs_inline call g ->
  state_ (cell w) = RUNNING ->
  func_ (cell w) = None ->
  add_with call g w = Done {| cell := cell w; trace := trace w ++ invocations g |}.
Proof.
  intros Hg Hs Hf. unfold add_with. rewrite Hf, Hs. cbn. now apply Hg.
Qed.

Lemma add_each_running call body :
  (forall g, In g body -> runs_inline call g) ->
  forall w,
    state_ (cell w) = RUNNING ->
    func_ (cell w) = None ->
    add_each call body w
    = Done {| cell := cell w; trace := trace w ++ flat_map invocations body |}.
Proof.
  induction body as [|g body IH]; intros Hall w Hs Hf; cbn [add_each flat_map].
  - rewrite app_nil_r. now destruct w.
  - rewrite add_with_running by (auto using in_eq).
    cbn [bind]. rewrite IH; cbn [cell trace]; auto using in_cons.
    now rewrite <- app_assoc.
Qed.

Lemma depth_In g body :
  In g body -> depth g <= list_max (map depth body).
Proof.
  intro H. pose proof (list_max_le (map depth body) (list_max (map depth body))) as [L _].
  specialize (L (Nat.le_refl _)). rewrite Forall_forall in L.
  apply L. now apply in_map.
Qed.

Lemma invoke_running fuel :
  forall f, depth f <= fuel -> runs_inline (invoke fuel) f.
Proof.
  induction fuel as [|fuel IH]; intros [t body] Hd; cbn [depth] in Hd; [lia|].
  intros w Hs Hf. cbn [invoke].
  rewrite add_each_running; cbn [emit cell trace]; auto.
  - now rewrite <- app_assoc.
  - intros g Hg. apply IH. pose proof (depth_In g body Hg). lia.
Qed.

Lemma submissions_app t1 t2 :
  submissions (t1 ++ t2) = submissions t1 ++ submissions t2.
Proof. apply filter_app. Qed.

Lemma submissions_flat_map (l : list Func) :
  (forall g, In g l -> submissions (invocations g) = []) ->
  submissions (flat_map invocations l) = [].
Proof.
  induction l as [|g l IH]; intro H; cbn [flat_map]; [reflexivity|].
  rewrite submissions_app, H, IH; auto using in_eq, in_cons.
Qed.

(** Running work on the spot submits nothing. *)
Lemma submissions_invocations :
  forall f, submissions (invocations f) = [].
Proof.
  fix IH 1. intros [t body]. cbn [invocations].
  change (submissions (flat_map invocations body) = []).
  apply submissions_flat_map.
  induction body as [|g body IHb]; intros h Hh; [destruct Hh|].
  destruct Hh as [<-|Hh]; [apply IH | now apply IHb].
Qed.

(** ** [enqueueWork] *)

Lemma enqueueWork_submits fuel w e f :
  func_ (cell w) = Some f ->
  executorKeepAlive_ (cell w) = Some e ->
  depth f <= fuel ->
  enqueueWork fuel w
  = Done {| cell := {| func_ := None;
                       keepAliveCount_ := keepAliveCount_ (cell w);
                       state_ := RUNNING;
                       executorKeepAlive_ := Some e |};
            trace := trace w ++ Submitted e f RUNNING
                             :: (if exec_inline e then invocations f else []) |}.
Proof.
  intros Hf He Hd. unfold enqueueWork, enqueueWork_with. rewrite Hf.
  cbn [set_state_ cell executorKeepAlive_]. rewrite He.
  unfold Executor_add. cbn [set_func_ set_state_ cell state_ trace emit].
  destruct (exec_inline e).
  - rewrite (@invoke_running fuel f Hd) by reflexivity.
    unfold emit, set_func_, set_state_; cbn. now rewrite He, <- app_assoc.
  - unfold emit, set_func_, set_state_; cbn. now rewrite He.
Qed.

Lemma add_each_returns call body :
  (forall g, In g body -> returns_inline call g) ->
  forall w w',
    state_ (cell w) = RUNNING ->
    func_ (cell w) = None ->
    add_each call body w = Done w' ->
    w' = {| cell := cell w; trace := trace w ++ flat_map invocations body |}.
Proof.
  induction body as [|g body IH]; intros Hall w w' Hs Hf; cbn [add_each flat_map].
  - rewrite app_nil_r. intros [= <-]. now destruct w.
  - unfold add_with at 1. rewrite Hf, Hs. cbn [State_eqb].
    destruct (call g w) as [w1| | |] eqn:E; cbn [bind]; try discriminate.
    apply (Hall g (in_eq _ _) w w1 Hs Hf) in E. subst w1.
    intro H. apply IH in H; cbn [cell trace] in *; auto using in_cons.
    now rewrite <- app_assoc in H.
Qed.

Lemma invoke_returns fuel :
  forall f, returns_inline (invoke fuel) f.
Proof.
  induction fuel as [|fuel IH]; intros [t body] w w' Hs Hf; cbn [invoke];
    [discriminate|].
  intro H. apply add_each_returns in H; cbn [emit cell trace] in *; auto.
  now rewrite <- app_assoc in H.
Qed.

Lemma submitted_running_invocations :
  forall l, submissions l = [] -> Forall submitted_running l.
Proof.
  induction l as [|ev l IH]; [constructor|].
  destruct ev; cbn; [discriminate|]. intro H. constructor; [exact I | auto].
Qed.

(** [enqueueWork] returns only after it has submitted the stored work to
    the stored executor, with the state already at [RUNNING]. *)
Lemma enqueueWork_Done fuel w w' :
  enqueueWork fuel w = Done w' ->
  exists e f,
    func_ (cell w) = Some f /\
    executorKeepAlive_ (cell w) = Some e /\
    w' = {| cell := {| func_ := None;
                       keepAliveCount_ := keepAliveCount_ (cell w);
                       state_ := RUNNING;
                       executorKeepAlive_ := Some e |};
            trace := trace w ++ Submitted e f RUNNING
                             :: (if exec_inline e then invocations f else []) |}.
Proof.
  unfold enqueueWork, enqueueWork_with.
  destruct (func_ (cell w)) as [f|] eqn:Hf; [|discriminate].
  cbn [set_state_ cell executorKeepAlive_].
  destruct (executorKeepAlive_ (cell w)) as [e|] eqn:He; [|discriminate].
  unfold Executor_add. intro H. exists e, f. repeat split.
  destruct (exec_inline e).
  - apply invoke_returns in H; [|reflexivity|reflexivity]. subst w'.
    unfold emit, set_func_, set_state_; cbn. now rewrite He, <- app_assoc.
  - injection H as <-. unfold emit, set_func_, set_state_; cbn. now rewrite He.
Qed.

(** What a returning [add] did, by the state it found. *)
Lemma add_Done fuel f w w' :
  add fuel f w = Done w' ->
  func_ (cell w) = None /\
  match state_ (cell w) with
  | RUNNING =>
      w' = {| cell := cell w; trace := trace w ++ invocations f |}
  | NEW =>
      w' = set_state_ HAS_CALLBACK (set_func_ (Some f) w)
  | _ =>
      enqueueWork fuel (set_func_ (Some f) w) = Done w'
  end.
Proof.
  unfold add, add_with.
  destruct (func_ (cell w)) eqn:Hf; [discriminate|]. intro H.
  split; [reflexivity|].
  destruct (state_ (cell w)) eqn:Hs; cbn in H |- *;
    unfold compare_exchange_strong in *; cbn in H |- *;
    try rewrite Hs in H; cbn in H; try congruence; try exact H.
  now apply invoke_returns in H.
Qed.

Lemma setExecutor_Done fuel e w w' :
  setExecutor fuel e w = Done w' ->
  match state_ (cell w) with
  | NEW =>
      w' = set_state_ HAS_EXECUTOR (set_executorKeepAlive_ (Some e) w)
  | _ =>
      enqueueWork fuel (set_executorKeepAlive_ (Some e) w) = Done w'
  end.
Proof.
  unfold setExecutor, setExecutor_with, compare_exchange_strong.
  cbn [set_executorKeepAlive_ cell state_].
  destruct (state_ (cell w)) eqn:Hs; cbn; intro H; try exact H; congruence.
Qed.

(** The invariant of the worlds between calls. *)
Lemma reachable_invariant w :
  reachable w ->
  (state_ (cell w) = RUNNING -> func_ (cell w) = None) /\
  Forall submitted_running (trace w).
Proof.
  induction 1 as [|fuel f w w' _ [IHf IHt] H|fuel e w w' _ [IHf IHt] H
                  |n w _ [IHf IHt]].
  - split; [discriminate | constructor].
  - apply add_Done in H. destruct H as [Hf H].
    destruct (state_ (cell w)) eqn:Hs.
    + subst w'. split; [discriminate | exact IHt].
    + apply enqueueWork_Done in H. destruct H as (e & g & _ & _ & ->).
      cbn. split; [reflexivity|]. apply Forall_app; split; [exact IHt|].
      constructor; [reflexivity|].
      destruct (exec_inline e); [|constructor].
      apply submitted_running_invocations, submissions_invocations.
    + apply enqueueWork_Done in H. destruct H as (e & g & _ & _ & ->).
      cbn. split; [reflexivity|]. apply Forall_app; split; [exact IHt|].
      constructor; [reflexivity|].
      destruct (exec_inline e); [|constructor].
      apply submitted_running_invocations, submissions_invocations.
    + subst w'. cbn. split; [auto|]. apply Forall_app; split; [exact IHt|].
      apply submitted_running_invocations, submissions_invocations.
  - apply setExecutor_Done in H.
    assert (E : enqueueWork fuel (set_executorKeepAlive_ (Some e) w) = Done w' ->
                (state_ (cell w') = RUNNING -> func_ (cell w') = None) /\
                Forall submitted_running (trace w')).
    { intro H'. apply enqueueWork_Done in H'. destruct H' as (e' & g & _ & _ & ->).
      cbn. split; [reflexivity|]. apply Forall_app; split; [exact IHt|].
      constructor; [reflexivity|].
      destruct (exec_inline e'); [|constructor].
      apply submitted_running_invocations, submissions_invocations. }
    destruct (state_ (cell w)) eqn:Hs; auto.
    subst w'. split; [discriminate | exact IHt].
  - cbn. split; assumption.
Qed.

(** ** The cell between calls *)

(** On a cell that is [NEW] and holds no work, [add] stores the work and
    moves to [HAS_CALLBACK] without touching the outside. *)
Lemma add_on_new fuel f w :
  state_ (cell w) = NEW ->
  func_ (cell w) = None ->
  add fuel f w = Done (set_state_ HAS_CALLBACK (set_func_ (Some f) w)).
Proof.
  intros Hs Hf. unfold add, add_with, compare_exchange_strong.
  rewrite Hf, Hs. cbn. rewrite Hs. reflexivity.
Qed.

Lemma setExecutor_on_new fuel e w :
  state_ (cell w) = NEW ->
  setExecutor fuel e w
  = Done (set_state_ HAS_EXECUTOR (set_executorKeepAlive_ (Some e) w)).
Proof.
  intros Hs. unfold setExecutor, setExecutor_with, compare_exchange_strong.
  cbn. rewrite Hs. reflexivity.
Qed.

Lemma add_on_waiting fuel f w :
  state_ (cell w) = HAS_EXECUTOR \/ state_ (cell w) = HAS_CALLBACK ->
  func_ (cell w) = None ->
  add fuel f w = enqueueWork fuel (set_func_ (Some f) w).
Proof.
  intros Hs Hf. unfold add, add_with, compare_exchange_strong.
  rewrite Hf. cbn. destruct Hs as [-> | ->]; reflexivity.
Qed.

Lemma setExecutor_on_waiting fuel e w :
  state_ (cell w) <> NEW ->
  setExecutor fuel e w = enqueueWork fuel (set_executorKeepAlive_ (Some e) w).
Proof.
  intros Hs. unfold setExecutor, setExecutor_with, compare_exchange_strong.
  cbn. destruct (state_ (cell w)); try reflexivity. now elim Hs.
Qed.

Lemma submissions_of_submit c w :
  submissions (Submitted c w RUNNING
               :: (if exec_inline c then invocations w else []))
  = [Submitted c w RUNNING].
Proof.
  change (Submitted c w RUNNING :: ?l) with ([Submitted c w RUNNING] ++ l).
  rewrite submissions_app. cbn.
  destruct (exec_inline c); [now rewrite submissions_invocations | reflexivity].
Qed.

(** C1.  On a cell that is new and holds no work, [add(w)] followed by
    [setExecutor(c)], and [setExecutor(c)] followed by [add(w)], both return;
    the first call of the pair adds nothing to the trace, and the second adds
    events of which exactly one is a submission, that of [w] to [c]. *)
Theorem submitted_once_in_either_order :
  forall (fuel : nat) (w0 : World) (w : Func) (c : Executor),
    state_ (cell w0) = NEW ->
    func_ (cell w0) = None ->
    depth w <= fuel ->
    (exists w1 w2 evs,
        add fuel w w0 = Done w1 /\
        trace w1 = trace w0 /\
        setExecutor fuel c w1 = Done w2 /\
        trace w2 = trace w0 ++ evs /\
        submissions evs = [Submitted c w RUNNING] /\
        state_ (cell w2) = RUNNING) /\
    (exists w1 w2 evs,
        setExecutor fuel c w0 = Done w1 /\
        trace w1 = trace w0 /\
        add fuel w w1 = Done w2 /\
        trace w2 = trace w0 ++ evs /\
        submissions evs = [Submitted c w RUNNING] /\
        state_ (cell w2) = RUNNING).
Proof.
  intros fuel w0 w c Hs Hf Hd. split.
  - rewrite (add_on_new fuel w w0 Hs Hf).
    eexists _, _, _. split; [reflexivity|]. split; [reflexivity|].
    rewrite setExecutor_on_waiting by (cbn; discriminate).
    erewrite enqueueWork_submits by (try reflexivity; exact Hd).
    split; [reflexivity|]. cbn [trace set_executorKeepAlive_ set_state_ set_func_].
    split; [reflexivity|]. split; [|reflexivity].
    apply submissions_of_submit.
  - rewrite (setExecutor_on_new fuel c w0 Hs).
    eexists _, _, _. split; [reflexivity|]. split; [reflexivity|].
    rewrite add_on_waiting by (cbn; auto).
    erewrite enqueueWork_submits by (try reflexivity; exact Hd).
    split; [reflexivity|]. cbn [trace set_executorKeepAlive_ set_state_ set_func_].
    split; [reflexivity|]. split; [|reflexivity].
    apply submissions_of_submit.
Qed.

Lemma submitted_once_in_either_order_witness :
  (exists w1 w2 evs,
      add 2 reentrant_work new_world = Done w1 /\
      trace w1 = trace new_world /\
      setExecutor 2 inline_executor w1 = Done w2 /\
      trace w2 = trace new_world ++ evs /\
      submissions evs = [Submitted inline_executor reentrant_work RUNNING] /\
      state_ (cell w2) = RUNNING) /\
  (exists w1 w2 evs,
      setExecutor 2 inline_executor new_world = Done w1 /\
      trace w1 = trace new_world /\
      add 2 reentrant_work w1 = Done w2 /\
      trace w2 = trace new_world ++ evs /\
      submissions evs = [Submitted inline_executor reentrant_work RUNNING] /\
      state_ (cell w2) = RUNNING).
Proof.
  apply (@submitted_once_in_either_order 2 new_world reentrant_work inline_executor).
  - reflexivity.
  - reflexivity.
  - cbn. lia.
Defined.

(** C6.  In a world where the cell is [RUNNING], [add(f)] returns having
    run [f] on the spot: the first thing it does is call [f], the cell is
    left as it was, so [f] is not stored, and nothing is submitted. *)
Theorem add_when_running_runs_on_the_spot :
  forall (fuel : nat) (w : World) (f : Func),
    reachable w ->
    state_ (cell w) = RUNNING ->
    depth f <= fuel ->
    exists evs,
      add fuel f w = Done {| cell := cell w; trace := trace w ++ Invoked f :: evs |} /\
      submissions (Invoked f :: evs) = [] /\
      func_ (cell w) = None.
Proof.
  intros fuel w f Hr Hs Hd.
  destruct (reachable_invariant Hr) as [Hf _]. specialize (Hf Hs).
  unfold add. rewrite add_with_running by (auto using invoke_running).
  pose proof (submissions_invocations f) as Hsub.
  destruct f as [t body]. cbn [invocations] in *.
  eexists. split; [reflexivity|]. split; [exact Hsub | exact Hf].
Qed.

(** A cell brought to [RUNNING] by [setExecutor] then [add]. *)
Lemma running_world_reachable : reachable running_world.
Proof.
  eapply reachable_add with (fuel := 1) (f := inner_work).
  - eapply reachable_setExecutor with (fuel := 1) (e := queue_executor).
    + exact reachable_created.
    + reflexivity.
  - reflexivity.
Qed.

Lemma add_when_running_runs_on_the_spot_witness :
  exists evs,
    add 2 reentrant_work running_world
    = Done {| cell := cell running_world;
              trace := trace running_world ++ Invoked reentrant_work :: evs |} /\
    submissions (Invoked reentrant_work :: evs) = [].
Proof.
  destruct (@add_when_running_runs_on_the_spot 2 running_world reentrant_work)
    as [evs [Ha [Hsub _]]].
  - exact running_world_reachable.
  - reflexivity.
  - cbn. lia.
  - exists evs. split; assumption.
Defined.

(** C7.  When [add] has returned and left the cell short of [RUNNING], the
    work it was given is pending in [func_], and a second [add] ends in the
    failure of [assert(!func_)]: it neither returns nor replaces the pending
    work. *)
Theorem second_add_before_running_asserts :
  forall (fuel fuel' : nat) (w w1 : World) (f f' : Func),
    add fuel f w = Done w1 ->
    state_ (cell w1) <> RUNNING ->
    func_ (cell w1) = Some f /\
    state_ (cell w1) = HAS_CALLBACK /\
    add fuel' f' w1 = AssertionFailed.
Proof.
  intros fuel fuel' w w1 f f' H Hs.
  apply add_Done in H. destruct H as [Hf H].
  assert (E : func_ (cell w1) = Some f /\ state_ (cell w1) = HAS_CALLBACK).
  { destruct (state_ (cell w)) eqn:Hw.
    - subst w1. split; reflexivity.
    - apply enqueueWork_Done in H. destruct H as (e & g & _ & _ & ->).
      now elim Hs.
    - apply enqueueWork_Done in H. destruct H as (e & g & _ & _ & ->).
      now elim Hs.
    - subst w1. now elim Hs. }
  destruct E as [E1 E2]. repeat split; auto.
  unfold add, add_with. now rewrite E1.
Qed.

Lemma second_add_before_running_asserts_witness :
  add 1 inner_work new_world
  = Done (set_state_ HAS_CALLBACK (set_func_ (Some inner_work) new_world)) /\
  add 2 reentrant_work
      (set_state_ HAS_CALLBACK (set_func_ (Some inner_work) new_world))
  = AssertionFailed.
Proof.
  split; [reflexivity|].
  apply (@second_add_before_running_asserts 1 2 new_world _ inner_work reentrant_work).
  - reflexivity.
  - cbn. discriminate.
Defined.

(** C10.  [enqueueWork] stores [RUNNING] before it calls the executor: the
    submission it records was made with [state_] at [RUNNING], and so was
    every submission in the trace of a reachable world.  When the executor
    runs the work inside its [add], every [add] that work makes on the cell
    runs its argument on the spot: after the submission the trace holds only
    invocations, those of the work and of what it re-entered with, and no
    second submission. *)
Theorem enqueueWork_is_running_before_it_submits :
  forall (fuel : nat) (w : World) (e : Executor) (t : nat) (reenter : list Func),
    func_ (cell w) = Some (MkFunc t reenter) ->
    executorKeepAlive_ (cell w) = Some e ->
    depth (MkFunc t reenter) <= fuel ->
    exists w',
      enqueueWork fuel w = Done w' /\
      state_ (cell w') = RUNNING /\
      func_ (cell w') = None /\
      trace w' = trace w ++ Submitted e (MkFunc t reenter) RUNNING
                         :: (if exec_inline e
                             then Invoked (MkFunc t reenter)
                                  :: flat_map invocations reenter
                             else []) /\
      submissions (flat_map invocations reenter) = [] /\
      (forall r, reachable r -> Forall submitted_running (trace r)).
Proof.
  intros fuel w e t reenter Hf He Hd.
  rewrite (enqueueWork_submits w Hf He Hd).
  eexists. split; [reflexivity|]. cbn [cell trace state_ func_ invocations].
  repeat split.
  - exact (submissions_invocations (MkFunc t reenter)).
  - intros r Hr. exact (proj2 (reachable_invariant Hr)).
Qed.

Lemma enqueueWork_is_running_before_it_submits_witness :
  exists w',
    enqueueWork 2 (set_executorKeepAlive_ (Some inline_executor)
                     (set_func_ (Some reentrant_work) new_world)) = Done w' /\
    state_ (cell w') = RUNNING /\
    trace w' = [Submitted inline_executor reentrant_work RUNNING;
                Invoked reentrant_work; Invoked inner_work].
Proof.
  destruct (@enqueueWork_is_running_before_it_submits 2
              (set_executorKeepAlive_ (Some inline_executor)
                 (set_func_ (Some reentrant_work) new_world))
              inline_executor 7 [inner_work])
    as [w' [H1 [H2 [_ [H3 _]]]]].
  - reflexivity.
  - reflexivity.
  - cbn. lia.
  - exists w'. repeat split; assumption.
Defined.

(* ================================================================= *)
(** * Theorems, Part III: tokens                                      *)
(* ================================================================= *)

Lemma create_returns :
  create = Done {| object := Some created; deletions := 0 |}.
Proof. reflexivity. Qed.

Lemma token_calls_app cs1 cs2 h :
  token_calls (cs1 ++ cs2) h = bind (token_calls cs1 h) (token_calls cs2).
Proof.
  revert h. induction cs1 as [|c cs1 IH]; intro h; cbn [app token_calls bind];
    [reflexivity|].
  destruct (token_call c h); cbn [bind]; auto.
Qed.

Lemma net_app cs1 cs2 : net (cs1 ++ cs2) = (net cs1 + net cs2)%Z.
Proof.
  induction cs1 as [|c cs1 IH]; cbn [app net]; [reflexivity|]. rewrite IH. lia.
Qed.

Lemma set_keepAliveCount_same d n :
  n = keepAliveCount_ d -> set_keepAliveCount_ n d = d.
Proof. intros ->. now destruct d. Qed.

(** While every prefix of the calls leaves a token outstanding, within the
    range of the counter, the object lives, undeleted, and its counter is
    the number of tokens outstanding. *)
Lemma token_calls_alive cs :
  forall d n,
    (forall k, k <= length cs ->
               (0 < keepAliveCount_ d + net (firstn k cs) <= SSIZE_MAX)%Z) ->
    token_calls cs {| object := Some d; deletions := n |}
    = Done {| object := Some (set_keepAliveCount_ (keepAliveCount_ d + net cs)%Z d);
              deletions := n |}.
Proof.
  induction cs as [|c cs IH]; intros d n H; cbn [token_calls net].
  - rewrite set_keepAliveCount_same by lia. reflexivity.
  - pose proof (H 0 (Nat.le_0_l _)) as H0. cbn in H0.
    pose proof (H 1 ltac:(cbn; lia)) as H1. cbn [firstn net] in H1.
    assert (Hstep : forall d',
               func_ d' = func_ d -> state_ d' = state_ d ->
               executorKeepAlive_ d' = executorKeepAlive_ d ->
               keepAliveCount_ d' = (keepAliveCount_ d + token_delta c)%Z ->
               token_calls cs {| object := Some d'; deletions := n |}
               = Done {| object := Some (set_keepAliveCount_
                                          (keepAliveCount_ d + (token_delta c + net cs))%Z d);
                         deletions := n |}).
    { intros d' E1 E2 E3 E4. rewrite IH.
      - unfold set_keepAliveCount_. rewrite E1, E2, E3, E4.
        now rewrite Z.add_assoc.
      - intros k Hk. specialize (H (S k) ltac:(cbn; lia)).
        cbn [firstn net] in H. rewrite E4. lia. }
    destruct c; cbn [token_call getKeepAliveToken keepAliveRelease
                     keepAliveAcquire releaseAndTryFree object deletions
                     token_delta] in *.
    + destruct (keepAliveCount_ d <? SSIZE_MAX)%Z eqn:E; [|apply Z.ltb_ge in E; lia].
      cbn [bind]. apply Hstep; reflexivity.
    + destruct (SSIZE_MIN <? keepAliveCount_ d)%Z eqn:E;
        [|apply Z.ltb_ge in E; unfold SSIZE_MIN in E; lia].
      cbn [set_keepAliveCount_ keepAliveCount_].
      destruct (keepAliveCount_ d - 1 =? 0)%Z eqn:E0; [apply Z.eqb_eq in E0; lia|].
      cbn [bind]. apply Hstep; reflexivity.
Qed.

(** C5.  [create] returns the cell with one token outstanding.  For calls
    made by token holders (before each call a token is outstanding) that
    bring the number of tokens to zero, every call returns, the object is
    alive and undeleted before each of them, its counter being the positive
    number of tokens outstanding, and after the last one it has been deleted,
    once. *)
Theorem deleted_once_when_tokens_return_to_zero :
  forall cs : list TokenCall,
    (forall k, k < length cs -> (0 < outstanding (firstn k cs) <= SSIZE_MAX)%Z) ->
    outstanding cs = 0%Z ->
    create = Done {| object := Some created; deletions := 0 |} /\
    keepAliveCount_ created = 1%Z /\
    (forall k, k < length cs ->
       exists d,
         bind create (token_calls (firstn k cs))
         = Done {| object := Some d; deletions := 0 |} /\
         keepAliveCount_ d = outstanding (firstn k cs) /\
         (0 < keepAliveCount_ d)%Z) /\
    bind create (token_calls cs) = Done {| object := None; deletions := 1 |}.
Proof.
  intros cs Hpos Hzero. rewrite create_returns. cbn [bind].
  split; [reflexivity|]. split; [reflexivity|].
  assert (Hpre : forall k, k < length cs ->
            token_calls (firstn k cs) {| object := Some created; deletions := 0 |}
            = Done {| object := Some (set_keepAliveCount_ (outstanding (firstn k cs)) created);
                      deletions := 0 |}).
  { intros k Hk. rewrite token_calls_alive; [reflexivity|].
    intros j Hj. rewrite firstn_firstn.
    assert (Hlen : length (firstn k cs) = k) by (apply firstn_length_le; lia).
    rewrite Hlen in Hj. specialize (Hpos (Nat.min j k) ltac:(lia)).
    exact Hpos. }
  split.
  - intros k Hk. eexists. split; [apply Hpre; exact Hk|].
    cbn [set_keepAliveCount_ keepAliveCount_]. split; [reflexivity|].
    apply (Hpos k Hk).
  - destruct (list_eq_dec (fun x y : TokenCall => ltac:(decide equality)) cs [])
      as [->|Hne]; [discriminate Hzero|].
    destruct (exists_last Hne) as [cs' [c ->]].
    rewrite length_app in Hpos, Hpre. cbn [length] in Hpos, Hpre.
    specialize (Hpre (length cs') ltac:(lia)).
    specialize (Hpos (length cs') ltac:(lia)).
    rewrite firstn_app, firstn_all, Nat.sub_diag in Hpre, Hpos.
    cbn [firstn] in Hpre, Hpos. rewrite app_nil_r in Hpre, Hpos.
    rewrite token_calls_app, Hpre. cbn [bind token_calls].
    unfold outstanding in *. rewrite net_app in Hzero. cbn [net] in Hzero.
    destruct c; cbn [token_delta] in Hzero; [lia|].
    replace (1 + net cs')%Z with 1%Z by lia. reflexivity.
Qed.

Lemma deleted_once_when_tokens_return_to_zero_witness :
  bind create (token_calls [AcquireToken; ReleaseToken; ReleaseToken])
  = Done {| object := None; deletions := 1 |}.
Proof.
  apply (@deleted_once_when_tokens_return_to_zero
           [AcquireToken; ReleaseToken; ReleaseToken]).
  - intros k Hk. destruct k as [|[|[|k]]]; cbn in *; unfold SSIZE_MAX; lia.
  - reflexivity.
Defined.

(* ================================================================= *)
(** * Theorems, Part IV: the work wrapper                             *)
(* ================================================================= *)




(* ================================================================= *)
(** * Theorems, Part V: the race                                      *)
(* ================================================================= *)

(** ** The steps of a thread make up the method *)

Lemma thread_run_Returned call n meth w :
  thread_run call n meth Returned w = Done (Returned, w).
Proof.
  induction n as [|n IH]; [reflexivity|].
  cbn [thread_run]. destruct meth; cbn; exact IH.
Qed.

Ltac destruct_call call :=
  match goal with
  | |- context [call ?f ?w] => destruct (call f w)
  end.

(** X20.  A thread left alone runs [add], or [setExecutor], as Part II has
    it: taking the steps of the method one access at a time, from its entry
    and for as many steps as it can need, ends as the method run in one
    piece does, with the same outcome and the same world. *)
Lemma thread_run_is_method call meth w :
  thread_run call (steps_left (entry meth)) meth (entry meth) w
  = bind (method_with call meth w) (fun w' => Done (Returned, w')).
Proof.
  destruct w as [[F K S E] T].
  destruct meth as [f|e]; cbn [entry steps_left method_with];
    unfold add_with, setExecutor_with, enqueueWork_with, compare_exchange_strong.
  - destruct F as [g|]; [reflexivity|].
    destruct S, E as [e|]; do 2 (cbn; unfold Executor_add);
      try reflexivity;
      try (destruct_call call; reflexivity);
      destruct (exec_inline e); cbn; try reflexivity;
      destruct_call call; reflexivity.
  - destruct S, F as [g|]; do 2 (cbn; unfold Executor_add);
      try reflexivity;
      destruct (exec_inline e); cbn; try reflexivity;
      destruct_call call; reflexivity.
Qed.

Lemma Executor_add_running fuel e f w :
  depth f <= fuel ->
  state_ (cell w) = RUNNING ->
  func_ (cell w) = None ->
  Executor_add (invoke fuel) e f w
  = Done {| cell := cell w;
            trace := trace w ++ Submitted e f RUNNING
                             :: (if exec_inline e then invocations f else []) |}.
Proof.
  intros Hd Hs Hf. unfold Executor_add. rewrite Hs.
  destruct (exec_inline e); [|reflexivity].
  rewrite (@invoke_running fuel f Hd) by assumption.
  cbn [emit cell trace]. now rewrite <- app_assoc.
Qed.

Section RaceProof.

Variable fuel : nat.
Variable w0 : World.
Variable func : Func.
Variable exec : Executor.
Hypothesis fuel_enough : depth func <= fuel.

Let step := machine_step (invoke fuel) func exec.
Let Inv := race_invariant w0 func exec.

Ltac open_machine m :=
  destruct m as [[[F K S E] T] pa ps cw sb]; cbn in *; subst.

Ltac close_invariant :=
  first
    [ solve [apply racing; cbn; reflexivity]
    | solve [apply won with (t := Adder); cbn; reflexivity]
    | solve [apply won with (t := Setter); cbn; reflexivity]
    | solve [apply submitting with (t := Adder); cbn; reflexivity]
    | solve [apply submitting with (t := Setter); cbn; reflexivity]
    | solve [apply submitted with (t := Adder); cbn; reflexivity]
    | solve [apply submitted with (t := Setter); cbn; reflexivity] ].

(** Every step of either thread returns, keeps the invariant, leaves the
    other thread where it was, and brings a thread that has not returned
    closer to returning. *)
Lemma race_invariant_step t m :
  Inv m ->
  exists m',
    step t m = Done m' /\
    Inv m' /\
    pc_of (other t) m' = pc_of (other t) m /\
    (steps_left (pc_of t m') < steps_left (pc_of t m) \/
     pc_of t m = Returned /\ m' = m).
Proof.
  intros [Hs Ha Hb Hf He Ht Hc Hsb
         |u Hs Ha Hb Hf He Ht Hc Hsb
         |u Hs Ha Hb Hf He Ht Hc Hsb
         |u Hs Ha Hb Hf He Ht Hc Hsb]; subst step Inv.
  - open_machine m.
    destruct pa; try discriminate; destruct ps; try discriminate;
      destruct t; cbn;
      (eexists; split; [reflexivity|]; split; [close_invariant|];
       split; [reflexivity|]; left; cbn; lia).
  - open_machine m.
    destruct u; cbn in *; subst;
      [destruct ps | destruct pa]; try discriminate;
      destruct t; cbn;
      (eexists; split; [reflexivity|]; split; [close_invariant|];
       split; [reflexivity|]; (left; cbn; lia) || (right; split; reflexivity)).
  - open_machine m.
    destruct u, t; cbn in *; subst; unfold machine_step;
      cbn [pc_of pc_adder pc_setter method_of shared thread_step cell
           executorKeepAlive_ func_];
      try rewrite Executor_add_running by (exact fuel_enough || reflexivity);
      cbn;
      (eexists; split; [reflexivity|]; split;
       [ first [ solve [apply submitting with (t := Adder); cbn; reflexivity]
               | solve [apply submitting with (t := Setter); cbn; reflexivity]
               | solve [apply submitted with (t := Adder); cbn; reflexivity]
               | solve [apply submitted with (t := Setter); cbn; reflexivity] ]|];
       split; [reflexivity|]; (left; cbn; lia) || (right; split; reflexivity)).
  - open_machine m.
    destruct t; cbn;
      (eexists; split; [reflexivity|]; split;
       [apply submitted with (t := u); cbn; reflexivity|];
       split; [reflexivity|]; right; split; reflexivity).
Qed.

End RaceProof.

Lemma steps_of_cons_same t sched :
  steps_of t (t :: sched) = S (steps_of t sched).
Proof. unfold steps_of. cbn. now destruct t. Qed.

Lemma steps_of_cons_other t sched :
  steps_of (other t) (t :: sched) = steps_of (other t) sched.
Proof. unfold steps_of. cbn. now destruct t. Qed.

Lemma race_invariant_run fuel w0 func exec sched :
  depth func <= fuel ->
  forall m,
    race_invariant w0 func exec m ->
    exists m',
      machine_run (invoke fuel) func exec sched m = Done m' /\
      race_invariant w0 func exec m' /\
      forall t, steps_left (pc_of t m') <= steps_left (pc_of t m) - steps_of t sched.
Proof.
  intro Hd. induction sched as [|t sched IH]; intros m Hm.
  - exists m. split; [reflexivity|]. split; [exact Hm|]. intro t.
    unfold steps_of. cbn. lia.
  - destruct (race_invariant_step Hd t Hm) as (m1 & Hstep & Hm1 & Hother & Hleft).
    destruct (IH m1 Hm1) as (m' & Hrun & Hm' & Hsteps).
    exists m'. cbn [machine_run]. rewrite Hstep. cbn [bind].
    split; [exact Hrun|]. split; [exact Hm'|].
    intro s. pose proof (Hsteps s) as Hs.
    assert (Hcase : s = t \/ s = other t) by (destruct s, t; auto).
    destruct Hcase as [-> | ->].
    + rewrite steps_of_cons_same.
      destruct Hleft as [Hlt | [Hret ->]]; [lia|].
      rewrite Hret in *. cbn [steps_left] in *. lia.
    + rewrite steps_of_cons_other. rewrite Hother in Hs. exact Hs.
Qed.

Lemma race_invariant_init w0 func exec :
  state_ (cell w0) = NEW ->
  func_ (cell w0) = None ->
  race_invariant w0 func exec (machine_init func exec w0).
Proof.
  intros Hs Hf. apply racing; cbn; auto.
Qed.

Lemma Pc_eqb_Returned pc : Pc_eqb pc Returned = true <-> pc = Returned.
Proof. destruct pc; cbn; split; congruence. Qed.

(** C2.  Let one thread call [add(func)] and another [setExecutor(exec)] on
    a cell that is new and holds no work, each taking one step at a time at
    every access to the cell, in any order [sched].  Every step returns (no
    assertion fails and nothing is undefined).  Until both calls have
    returned nothing has been submitted; once both have, the trace has grown
    by events of which exactly one is a submission, that of [func] to [exec],
    the cell is [RUNNING], exactly one thread's compare-and-swap has
    succeeded, and it is the other thread that submitted.  Both calls have
    returned as soon as the adder has been given 8 steps and the setter 6. *)
Theorem race_submits_exactly_once :
  forall (fuel : nat) (w0 : World) (func : Func) (exec : Executor)
         (sched : list Tid),
    state_ (cell w0) = NEW ->
    func_ (cell w0) = None ->
    depth func <= fuel ->
    exists m,
      machine_run (invoke fuel) func exec sched (machine_init func exec w0)
      = Done m /\
      (finished m = false -> trace (shared m) = trace w0) /\
      (finished m = true ->
       exists evs winner,
         trace (shared m) = trace w0 ++ evs /\
         submissions evs = [Submitted exec func RUNNING] /\
         state_ (cell (shared m)) = RUNNING /\
         func_ (cell (shared m)) = None /\
         cas_won m = [winner] /\
         submitted_by m = [other winner]) /\
      (8 <= steps_of Adder sched -> 6 <= steps_of Setter sched ->
       finished m = true).
Proof.
  intros fuel w0 func exec sched Hs Hf Hd.
  destruct (@race_invariant_run fuel w0 func exec sched Hd _
              (@race_invariant_init w0 func exec Hs Hf))
    as (m & Hrun & Hm & Hsteps).
  exists m. split; [exact Hrun|]. unfold finished. repeat split.
  - intro Hfin.
    destruct Hm as [? ? ? ? ? Ht ? ?|u ? ? ? ? ? Ht ? ?|u ? ? ? ? ? Ht ? ?
                   |u ? Ha Hb ? ? ? ? ?]; try exact Ht.
    rewrite Ha, Hb in Hfin. discriminate.
  - intro Hfin. apply andb_true_iff in Hfin. destruct Hfin as [Ha Hb].
    apply Pc_eqb_Returned in Ha, Hb.
    destruct Hm as [? Ha' ? ? ? ? ? ?|u ? Ha' Hb' ? ? ? ? ?|u ? Ha' Hb' ? ? ? ? ?
                   |u Hst _ _ Hfn _ Ht Hc Hsb].
    + rewrite Ha in Ha'. discriminate.
    + destruct u; cbn in Hb'; rewrite ?Ha, ?Hb in Hb'; discriminate.
    + destruct u; cbn in Hb'; rewrite ?Ha, ?Hb in Hb'; discriminate.
    + eexists _, u. split; [exact Ht|]. split; [apply submissions_of_submit|].
      repeat split; assumption.
  - intros HA HS.
    pose proof (Hsteps Adder) as H1. pose proof (Hsteps Setter) as H2.
    cbn [pc_of machine_init pc_adder pc_setter entry steps_left] in H1, H2.
    assert (Ea : steps_left (pc_adder m) = 0) by lia.
    assert (Eb : steps_left (pc_setter m) = 0) by lia.
    destruct (pc_adder m); try discriminate Ea.
    destruct (pc_setter m); try discriminate Eb. reflexivity.
Qed.

Lemma race_submits_exactly_once_witness :
  exists m,
    machine_run (invoke 2) reentrant_work inline_executor sample_schedule
                (machine_init reentrant_work inline_executor new_world)
    = Done m /\
    finished m = true /\
    submissions (trace (shared m))
    = [Submitted inline_executor reentrant_work RUNNING] /\
    cas_won m = [Setter] /\
    submitted_by m = [Adder].
Proof.
  destruct (@race_submits_exactly_once 2 new_world reentrant_work
              inline_executor sample_schedule)
    as (m & Hrun & _ & Hdone & Hfin).
  - reflexivity.
  - reflexivity.
  - cbn. lia.
  - exists m. split; [exact Hrun|].
    assert (F : finished m = true) by (apply Hfin; cbn; lia).
    split; [exact F|].
    destruct (Hdone F) as (evs & winner & Ht & Hsub & _ & _ & Hc & Hs).
    cbn in Hrun. injection Hrun as <-. cbn in *.
    injection Hc as <-. subst evs. repeat split.
Defined.

(** In no interleaving do the next steps of the two threads touch the same
    plain member with one of them writing: the race on [state_] is the only
    one, and the interleavings above are all the behaviours there are. *)
Lemma race_invariant_no_conflict w0 func exec m :
  race_invariant w0 func exec m -> conflicting m = false.
Proof.
  unfold conflicting.
  intros [_ Ha Hb _ _ _ _ _|u _ Ha Hb _ _ _ _ _|u _ Ha Hb _ _ _ _ _
         |u _ Ha Hb _ _ _ _ _].
  - destruct (pc_adder m); try discriminate;
      destruct (pc_setter m); try discriminate; reflexivity.
  - destruct u; cbn in Ha, Hb; rewrite Ha.
    + reflexivity.
    + destruct (pc_adder m); reflexivity.
  - destruct u; cbn in Ha, Hb; rewrite Ha, Hb; reflexivity.
  - rewrite Ha, Hb. reflexivity.
Qed.

(** X17.  Under every interleaving of [add] and [setExecutor] on a new
    cell, whenever the threads stop, their next steps do not touch the same
    plain member ([func_] or [executorKeepAlive_]) with one of them writing
    it. *)
Theorem race_has_no_data_race :
  forall (fuel : nat) (w0 : World) (func : Func) (exec : Executor)
         (sched : list Tid),
    state_ (cell w0) = NEW ->
    func_ (cell w0) = None ->
    depth func <= fuel ->
    exists m,
      machine_run (invoke fuel) func exec sched (machine_init func exec w0)
      = Done m /\
      conflicting m = false.
Proof.
  intros fuel w0 func exec sched Hs Hf Hd.
  destruct (@race_invariant_run fuel w0 func exec sched Hd _
              (@race_invariant_init w0 func exec Hs Hf))
    as (m & Hrun & Hm & _).
  exists m. split; [exact Hrun|]. exact (race_invariant_no_conflict Hm).
Qed.

(* ================================================================= *)
(** * Further properties, Part I: the traits and [Extract]            *)
(* ================================================================= *)

(** X1.  The three future traits agree: [isFutureOrSemiFuture<T>::value] is
    the disjunction of [isFuture<T>::value] and [isSemiFuture<T>::value],
    which are never both true, and its [Inner] is the [Inner] of whichever of
    the two holds, or of either when neither does. *)
Theorem future_traits_agree :
  forall (Lift : Ty -> Ty) (T : Ty),
    value (isFutureOrSemiFuture Lift T)
    = trait_value (isFuture Lift T) || trait_value (isSemiFuture Lift T) /\
    trait_value (isFuture Lift T) && trait_value (isSemiFuture Lift T) = false /\
    Inner (isFutureOrSemiFuture Lift T)
    = (if trait_value (isFuture Lift T)
       then trait_Inner (isFuture Lift T)
       else trait_Inner (isSemiFuture Lift T)) /\
    Inner (isFutureOrSemiFuture Lift T)
    = (if trait_value (isSemiFuture Lift T)
       then trait_Inner (isSemiFuture Lift T)
       else trait_Inner (isFuture Lift T)).
Proof.
  intros Lift T. destruct T; repeat split; reflexivity.
Qed.

(** X2.  Of the two result types [callableResult<T, F>] carries, only its
    own [Return] changes the flavour: when the continuation returns a future
    type [R], [ReturnsFuture::Return] is [R] as it is, and it equals
    [callableResult::Return] exactly when [R] is an ordinary [Future]. *)
Theorem ReturnsFuture_Return_keeps_flavour :
  forall (Lift : Ty -> Ty) (T : Ty) (F : Callable) (r : CallableResult) (R : Ty),
    callableResult Lift T F = Some r ->
    Result (Arg r) = Some R ->
    value (ReturnsFuture r) = true ->
    Return (ReturnsFuture r) = R /\
    (cr_Return r = Return (ReturnsFuture r) <-> exists U, R = TFuture U).
Proof.
  intros Lift T F r R Hr HR Hv. unfold callableResult in Hr.
  destruct (Result (callableResult_Arg T F)) as [R'|] eqn:E; [|discriminate].
  injection Hr as <-. cbn [Arg ReturnsFuture cr_Return] in *.
  rewrite E in HR. injection HR as ->.
  destruct R; try discriminate Hv; cbn; split; try reflexivity; split.
  - intros _. eexists; reflexivity.
  - reflexivity.
  - discriminate.
  - intros [U HU]. discriminate HU.
Qed.

Lemma ReturnsFuture_Return_keeps_flavour_witness :
  exists r,
    callableResult UnitLift TInt (nullary (TSemiFuture TBool)) = Some r /\
    Return (ReturnsFuture r) = TSemiFuture TBool /\
    cr_Return r = TFuture TBool.
Proof.
  eexists. split; [reflexivity|].
  split; [|reflexivity].
  apply (@ReturnsFuture_Return_keeps_flavour UnitLift TInt
           (nullary (TSemiFuture TBool)) _ (TSemiFuture TBool));
    reflexivity.
Defined.

(** X3.  For a value type [T] that is not itself a [Try], the [isTry] flag
    of the selected [argResult] says whether the continuation is handed a
    [Try]; and when it is set, the continuation could not be called with no
    argument, with [T&&] or with [T&]. *)
Theorem isTry_flag_tells_the_argument :
  forall (T : Ty) (F : Callable),
    isTry_type T = false ->
    isTry (callableResult_Arg T F)
    = existsb (fun x => isTry_type (ArgTy_type x))
              (arg_Args (callableResult_Arg T F)) /\
    (isTry (callableResult_Arg T F) = true ->
     callableWith F [] = false /\
     callableWith F [RvalueRef T] = false /\
     callableWith F [LvalueRef T] = false).
Proof.
  intros T F HT. unfold callableResult_Arg.
  destruct (callableWith F []); [cbn; split; [reflexivity | discriminate]|].
  destruct (callableWith F [RvalueRef T]);
    [cbn; rewrite HT; split; [reflexivity | discriminate]|].
  destruct (callableWith F [LvalueRef T]);
    [cbn; rewrite HT; split; [reflexivity | discriminate]|].
  destruct (callableWith F [RvalueRef (TTry T)]); cbn; auto.
Qed.

Lemma isTry_flag_tells_the_argument_witness :
  isTry (callableResult_Arg TString (by_lvalue_ref (TTry TString) TInt)) = true /\
  isTry (callableResult_Arg TString (by_lvalue_ref TString TInt)) = false.
Proof.
  split.
  - rewrite (proj1 (@isTry_flag_tells_the_argument TString
                      (by_lvalue_ref (TTry TString) TInt) eq_refl)).
    reflexivity.
  - rewrite (proj1 (@isTry_flag_tells_the_argument TString
                      (by_lvalue_ref TString TInt) eq_refl)).
    reflexivity.
Defined.

(** When [T] is itself a [Try], the flag no longer tells: a continuation
    taking [Try<int>&&] composed onto a [Try<int>] is handed a [Try] with the
    flag unset. *)
Example isTry_flag_on_a_Try_value :
  isTry (callableResult_Arg (TTry TInt) (by_rvalue_ref (TTry TInt) TBool)) = false /\
  arg_Args (callableResult_Arg (TTry TInt) (by_rvalue_ref (TTry TInt) TBool))
  = [RvalueRef (TTry TInt)].
Proof. split; reflexivity. Qed.

(** X4.  [callableResult<T, F>::Return] is always an ordinary [Future], and
    it is [Future<void>] only when the continuation itself returns
    [Future<void>] or [SemiFuture<void>]. *)
Theorem callableResult_Return_is_a_Future :
  forall (T : Ty) (F : Callable) (r : CallableResult),
    callableResult UnitLift T F = Some r ->
    cr_Return r = TFuture (Inner (ReturnsFuture r)) /\
    (Inner (ReturnsFuture r) = TVoid ->
     Result (Arg r) = Some (TFuture TVoid) \/
     Result (Arg r) = Some (TSemiFuture TVoid)).
Proof.
  intros T F r Hr. unfold callableResult in Hr.
  destruct (Result (callableResult_Arg T F)) as [R|] eqn:E; [|discriminate].
  injection Hr as <-. cbn [Arg ReturnsFuture cr_Return].
  split; [reflexivity|]. rewrite E.
  destruct R; cbn; try discriminate; intros ->; auto.
Qed.

Lemma callableResult_Return_is_a_Future_witness :
  exists r,
    callableResult UnitLift TInt (nullary TVoid) = Some r /\
    cr_Return r = TFuture (Inner (ReturnsFuture r)) /\
    Inner (ReturnsFuture r) = TUnit.
Proof.
  eexists. split; [reflexivity|]. split; [|reflexivity].
  apply (@callableResult_Return_is_a_Future TInt (nullary TVoid)). reflexivity.
Defined.

Lemma callableResult_Arg_F (T : Ty) (F : Callable) :
  arg_F (callableResult_Arg T F) = F.
Proof.
  unfold callableResult_Arg.
  repeat match goal with
         | |- context [if ?c then _ else _] => destruct c
         end; reflexivity.
Qed.

(** X5.  [Extract] and [callableResult] agree: for a callable whose calls
    all return the [R] of its signature, whatever form [callableResult]
    selects, its [Return] and [ReturnsFuture] are those [Extract] reads off
    the signature, and [RawReturn] is the type inside that [Return]. *)
Theorem Extract_agrees_with_callableResult :
  forall (Lift : Ty -> Ty) (T : Ty) (F : Callable) (s : Signature)
         (r : CallableResult),
    (forall args R, resultOf F args = Some R -> R = sig_R s) ->
    callableResult Lift T F = Some r ->
    cr_Return r = ex_Return (Extract Lift s) /\
    ReturnsFuture r = ex_ReturnsFuture (Extract Lift s) /\
    cr_Return r = TFuture (ex_RawReturn (Extract Lift s)).
Proof.
  intros Lift T F s r HF Hr. unfold callableResult in Hr.
  destruct (Result (callableResult_Arg T F)) as [R|] eqn:E; [|discriminate].
  injection Hr as <-. unfold Result in E. rewrite callableResult_Arg_F in E.
  apply HF in E. subst R.
  unfold Extract. destruct (sig_shape s); repeat split.
Qed.

Lemma Extract_agrees_with_callableResult_witness :
  exists r,
    callableResult UnitLift TInt (by_lvalue_ref TInt (TSemiFuture TString)) = Some r /\
    cr_Return r
    = ex_Return (Extract UnitLift
                   {| sig_shape := FunctionPointer;
                      sig_R := TSemiFuture TString;
                      sig_Args := [TInt] |}).
Proof.
  eexists. split; [reflexivity|].
  apply (@Extract_agrees_with_callableResult UnitLift TInt
           (by_lvalue_ref TInt (TSemiFuture TString))
           {| sig_shape := FunctionPointer;
              sig_R := TSemiFuture TString;
              sig_Args := [TInt] |}).
  - intros args R. unfold resultOf, by_lvalue_ref.
    destruct args as [|[t|t] [|? ?]]; try discriminate.
    destruct (Ty_eqb t TInt); [|discriminate]. now intros [= <-].
  - reflexivity.
Defined.

(** X6.  [Extract] reports [void] as the first argument exactly for a
    callable declared with no parameter (a parameter is never [void]);
    otherwise it reports the first declared parameter. *)
Theorem Extract_FirstArg :
  forall (Lift : Ty -> Ty) (s : Signature),
    ~ In TVoid (sig_Args s) ->
    (ex_FirstArg (Extract Lift s) = TVoid <-> sig_Args s = []) /\
    (forall Arg0 rest,
        sig_Args s = Arg0 :: rest -> ex_FirstArg (Extract Lift s) = Arg0).
Proof.
  intros Lift s Hnv.
  assert (E : ex_FirstArg (Extract Lift s) = ArgType_FirstArg (sig_Args s))
    by (unfold Extract; destruct (sig_shape s); reflexivity).
  rewrite E. destruct (sig_Args s) as [|Arg0 rest]; cbn.
  - split; [split; reflexivity | intros ? ? H; discriminate H].
  - split.
    + split; [intros ->; elim Hnv; now left | discriminate].
    + intros ? ? H. now injection H as <- _.
Qed.

Lemma Extract_FirstArg_witness :
  ex_FirstArg (Extract UnitLift
                 {| sig_shape := MemberFunction;
                    sig_R := TInt;
                    sig_Args := [TTry TString; TBool] |})
  = TTry TString.
Proof.
  apply (@Extract_FirstArg UnitLift
           {| sig_shape := MemberFunction;
              sig_R := TInt;
              sig_Args := [TTry TString; TBool] |})
    with (rest := [TBool]).
  - cbn. intros [H|[H|[]]]; discriminate H.
  - reflexivity.
Defined.

(** X7.  Wrapping a closure with [wrap] does not change what [Extract]
    reads off it: the wrapper has the closure's return type and parameters,
    so every member of [Extract] is the same for both. *)
Theorem wrap_preserves_Extract :
  forall (Lift : Ty -> Ty) (KeepAlive Value : Type) (k : KeepAlive)
         (cat : ValueCategory) (f : Closure Value)
         (w : DeferredWorkWrapper KeepAlive Value),
    wrap k cat f = Some w ->
    Extract Lift (wrapper_signature w) = Extract Lift (closure_signature f).
Proof.
  intros Lift KeepAlive Value k cat f w Hw. unfold wrap in Hw.
  destruct cat; [discriminate|].
  destruct (closure_const f) eqn:Hc; [|discriminate]. injection Hw as <-.
  unfold Extract, wrapper_signature, closure_signature, wrapper_R, wrapper_Args.
  cbn. rewrite Hc. reflexivity.
Qed.

Lemma wrap_preserves_Extract_witness :
  exists w,
    wrap tt Rvalue unary_closure = Some w /\
    Extract UnitLift (wrapper_signature w)
    = Extract UnitLift (closure_signature unary_closure).
Proof.
  eexists. split; [reflexivity|].
  apply (@wrap_preserves_Extract UnitLift unit nat tt Rvalue unary_closure).
  reflexivity.
Defined.

(* ================================================================= *)
(** * Further properties, Part II: the cell on one thread             *)
(* ================================================================= *)

(** Every reachable world has the shape its state says. *)
Lemma reachable_shape w : reachable w -> shape w.
Proof.
  induction 1 as [|fuel f w w' _ IH H|fuel e w w' _ IH H|n w _ IH].
  - cbn. auto.
  - apply add_Done in H. destruct H as [Hf H]. unfold shape in IH |- *.
    destruct (state_ (cell w)) eqn:Hs.
    + subst w'. cbn. destruct IH as (_ & He & Ht). repeat split; auto.
      discriminate.
    + apply enqueueWork_Done in H. destruct H as (e & g & _ & He & ->).
      cbn in He |- *. destruct IH as (_ & _ & Ht). rewrite Ht.
      split; [reflexivity|]. eexists e, g, _. repeat split.
      destruct (exec_inline e); [apply submissions_invocations | reflexivity].
    + destruct IH as (Hn & _). now elim Hn.
    + subst w'. cbn. rewrite Hs.
      destruct IH as (_ & e & g & invs & He & Ht & Hi).
      split; [exact Hf|]. exists e, g, (invs ++ invocations f).
      repeat split; [exact He | now rewrite Ht |].
      rewrite submissions_app, Hi. apply submissions_invocations.
  - apply setExecutor_Done in H. unfold shape in IH |- *.
    destruct (state_ (cell w)) eqn:Hs.
    + subst w'. cbn. destruct IH as (Hf & _ & Ht). repeat split; auto.
      discriminate.
    + apply enqueueWork_Done in H. destruct H as (e' & g & Hg & _ & _).
      cbn in Hg. destruct IH as (Hf & _). congruence.
    + apply enqueueWork_Done in H. destruct H as (e' & g & _ & He & ->).
      cbn in He |- *. destruct IH as (_ & _ & Ht). rewrite Ht.
      split; [reflexivity|]. eexists e', g, _. repeat split.
      destruct (exec_inline e'); [apply submissions_invocations | reflexivity].
    + apply enqueueWork_Done in H. destruct H as (e' & g & Hg & _ & _).
      cbn in Hg. destruct IH as (Hf & _). congruence.
  - unfold shape in *. cbn. exact IH.
Qed.

(** X8.  Whatever calls of [add] and [setExecutor] have returned on a cell,
    its trace is empty until the cell is [RUNNING], and from then on it is
    one submission, made to the executor the cell holds, followed by
    invocations only: the cell submits at most once, runs nothing before, and
    never submits again. *)
Theorem reachable_trace :
  forall w : World,
    reachable w ->
    (state_ (cell w) <> RUNNING -> trace w = []) /\
    (state_ (cell w) = RUNNING ->
     exists e f invs,
       executorKeepAlive_ (cell w) = Some e /\
       trace w = Submitted e f RUNNING :: invs /\
       submissions invs = []) /\
    length (submissions (trace w)) <= 1 /\
    (length (submissions (trace w)) = 1 <-> state_ (cell w) = RUNNING).
Proof.
  intros w Hr. pose proof (reachable_shape Hr) as Hw. unfold shape in Hw.
  destruct (state_ (cell w)) eqn:Hs.
  - destruct Hw as (_ & _ & ->). cbn. repeat split; auto; discriminate.
  - destruct Hw as (_ & _ & ->). cbn. repeat split; auto; discriminate.
  - destruct Hw as (_ & _ & ->). cbn. repeat split; auto; discriminate.
  - destruct Hw as (_ & e & f & invs & He & Ht & Hi).
    assert (L : length (submissions (trace w)) = 1).
    { rewrite Ht. cbn. unfold submissions in Hi. now rewrite Hi. }
    repeat split; auto.
    + intro H. now elim H.
    + intros _. now exists e, f, invs.
    + lia.
Qed.

Lemma reachable_trace_witness :
  length (submissions (trace running_world)) = 1.
Proof.
  apply (@reachable_trace running_world running_world_reachable).
  reflexivity.
Defined.

(** X9.  Between calls the state tells what the cell holds: work is pending
    in [func_] exactly in [HAS_CALLBACK], and an executor is held exactly in
    [HAS_EXECUTOR] and [RUNNING]. *)
Theorem reachable_state_tells_contents :
  forall w : World,
    reachable w ->
    (func_ (cell w) <> None <-> state_ (cell w) = HAS_CALLBACK) /\
    (executorKeepAlive_ (cell w) <> None <->
     state_ (cell w) = HAS_EXECUTOR \/ state_ (cell w) = RUNNING).
Proof.
  intros w Hr. pose proof (reachable_shape Hr) as Hw. unfold shape in Hw.
  destruct (state_ (cell w)) eqn:Hs.
  - destruct Hw as (-> & -> & _).
    repeat split; try congruence; intros [H|H]; discriminate H.
  - destruct Hw as (-> & He & _).
    repeat split; try congruence; auto.
  - destruct Hw as (Hf & -> & _).
    repeat split; try congruence; intros [H|H]; discriminate H.
  - destruct Hw as (-> & e & f & invs & -> & _).
    repeat split; try congruence; auto.
Qed.

Lemma reachable_state_tells_contents_witness :
  func_ (cell running_world) <> None <-> state_ (cell running_world) = HAS_CALLBACK.
Proof.
  apply (@reachable_state_tells_contents running_world running_world_reachable).
Defined.

(** X10.  A second [setExecutor] never submits again: on a cell that
    already holds an executor, [HAS_EXECUTOR] or [RUNNING], [setExecutor]
    ends in the failure of [DCHECK(func_)] in [enqueueWork]. *)
Theorem second_setExecutor_fails_DCHECK :
  forall (fuel : nat) (w : World) (e : Executor),
    reachable w ->
    state_ (cell w) = HAS_EXECUTOR \/ state_ (cell w) = RUNNING ->
    setExecutor fuel e w = AssertionFailed.
Proof.
  intros fuel w e Hr Hs.
  pose proof (reachable_shape Hr) as Hw. unfold shape in Hw.
  assert (Hf : func_ (cell w) = None)
    by (destruct Hs as [Hs|Hs]; rewrite Hs in Hw; tauto).
  rewrite setExecutor_on_waiting by (destruct Hs as [-> | ->]; discriminate).
  unfold enqueueWork, enqueueWork_with. cbn. now rewrite Hf.
Qed.

Lemma second_setExecutor_fails_DCHECK_witness :
  setExecutor 1 inline_executor running_world = AssertionFailed.
Proof.
  apply (@second_setExecutor_fails_DCHECK 1 running_world inline_executor).
  - exact running_world_reachable.
  - right. reflexivity.
Defined.

(** Work run in a running cell returns or runs out of fuel; it neither
    fails an assertion nor is undefined. *)
Lemma invoke_running_outcome fuel :
  forall f w,
    state_ (cell w) = RUNNING ->
    func_ (cell w) = None ->
    (exists w', invoke fuel f w = Done w') \/ invoke fuel f w = OutOfFuel.
Proof.
  induction fuel as [|fuel IH]; intros [t body] w Hs Hf; cbn [invoke]; [now right|].
  assert (Hs' : state_ (cell (emit (Invoked (MkFunc t body)) w)) = RUNNING) by exact Hs.
  assert (Hf' : func_ (cell (emit (Invoked (MkFunc t body)) w)) = None) by exact Hf.
  generalize dependent (emit (Invoked (MkFunc t body)) w). clear w Hs Hf.
  induction body as [|g body IHb]; intros w Hs Hf; cbn [add_each].
  - left. now exists w.
  - assert (E : add_with (invoke fuel) g w = invoke fuel g w)
      by (unfold add_with; rewrite Hf, Hs; reflexivity).
    rewrite E.
    destruct (IH g w Hs Hf) as [[w1 H1] | H1]; rewrite H1; cbn [bind]; [|now right].
    apply invoke_returns in H1; [|assumption|assumption]. subst w1.
    apply IHb; assumption.
Qed.

(** X11.  Between calls the cell never goes through a null executor
    handle: on a reachable world neither [add] nor [setExecutor] is
    undefined, [enqueueWork] finding an executor whenever it gets as far as
    using one. *)
Theorem reachable_calls_are_defined :
  forall (fuel : nat) (w : World) (f : Func) (e : Executor),
    reachable w ->
    add fuel f w <> Undefined /\ setExecutor fuel e w <> Undefined.
Proof.
  intros fuel w f e Hr.
  pose proof (reachable_shape Hr) as Hw. unfold shape in Hw.
  assert (Hinv : forall g w1,
             state_ (cell w1) = RUNNING -> func_ (cell w1) = None ->
             invoke fuel g w1 <> Undefined).
  { intros g w1 Hs Hf. destruct (@invoke_running_outcome fuel g w1 Hs Hf)
      as [[w' H]|H]; rewrite H; discriminate. }
  split.
  - unfold add, add_with, enqueueWork_with, compare_exchange_strong, Executor_add.
    destruct (func_ (cell w)) eqn:Hf; [discriminate|].
    destruct (state_ (cell w)) eqn:Hs; cbn; rewrite ?Hs; cbn.
    + discriminate.
    + destruct Hw as (_ & He & _).
      destruct (executorKeepAlive_ (cell w)) as [e0|]; [|now elim He].
      destruct (exec_inline e0); [apply Hinv; reflexivity | discriminate].
    + destruct Hw as (Hn & _). now elim Hn.
    + apply Hinv; assumption.
  - unfold setExecutor, setExecutor_with, enqueueWork_with,
      compare_exchange_strong, Executor_add.
    destruct (state_ (cell w)) eqn:Hs; cbn; rewrite ?Hs; cbn;
      try discriminate;
      (destruct (func_ (cell w)); [|discriminate];
       destruct (exec_inline e); [apply Hinv; reflexivity | discriminate]).
Qed.

Lemma reachable_calls_are_defined_witness :
  add 2 reentrant_work running_world <> Undefined /\
  setExecutor 2 inline_executor running_world <> Undefined.
Proof.
  apply (@reachable_calls_are_defined 2 running_world reentrant_work inline_executor).
  exact running_world_reachable.
Defined.

(** X12.  A call that returns moves the cell one stage forward, from
    nothing attached to one of the two attached to [RUNNING], where it
    stays: the state never goes back, and [RUNNING] is final. *)
Theorem returning_calls_advance_the_stage :
  forall (fuel : nat) (w w' : World) (f : Func) (e : Executor),
    add fuel f w = Done w' \/ setExecutor fuel e w = Done w' ->
    stage (state_ (cell w')) = Nat.min 2 (S (stage (state_ (cell w)))).
Proof.
  intros fuel w w' f e [H|H].
  - apply add_Done in H. destruct H as [_ H].
    destruct (state_ (cell w)) eqn:Hs; try (subst w'; cbn; now rewrite ?Hs);
      apply enqueueWork_Done in H; destruct H as (? & ? & _ & _ & ->); reflexivity.
  - apply setExecutor_Done in H.
    destruct (state_ (cell w)) eqn:Hs; try (subst w'; reflexivity);
      apply enqueueWork_Done in H; destruct H as (? & ? & _ & _ & ->); reflexivity.
Qed.

Lemma returning_calls_advance_the_stage_witness :
  stage (state_ (cell (set_state_ HAS_CALLBACK
                         (set_func_ (Some inner_work) new_world)))) = 1.
Proof.
  apply (@returning_calls_advance_the_stage 1 new_world _ inner_work inline_executor).
  left. reflexivity.
Defined.

(** The token counter and the executor handle, which [add] leaves alone. *)
Lemma enqueueWork_with_keeps call :
  (forall g w w', call g w = Done w' ->
                  keepAliveCount_ (cell w') = keepAliveCount_ (cell w) /\
                  executorKeepAlive_ (cell w') = executorKeepAlive_ (cell w)) ->
  forall w w',
    enqueueWork_with call w = Done w' ->
    keepAliveCount_ (cell w') = keepAliveCount_ (cell w) /\
    executorKeepAlive_ (cell w') = executorKeepAlive_ (cell w).
Proof.
  intros Hcall w w'. unfold enqueueWork_with, Executor_add.
  destruct (func_ (cell w)) as [g|]; [|discriminate].
  destruct (executorKeepAlive_ (cell (set_state_ RUNNING w))) as [e0|];
    [|discriminate].
  destruct (exec_inline e0); intro H.
  - apply Hcall in H. exact H.
  - injection H as <-. split; reflexivity.
Qed.

Lemma add_with_keeps call :
  (forall g w w', call g w = Done w' ->
                  keepAliveCount_ (cell w') = keepAliveCount_ (cell w) /\
                  executorKeepAlive_ (cell w') = executorKeepAlive_ (cell w)) ->
  forall f w w',
    add_with call f w = Done w' ->
    keepAliveCount_ (cell w') = keepAliveCount_ (cell w) /\
    executorKeepAlive_ (cell w') = executorKeepAlive_ (cell w).
Proof.
  intros Hcall f w w'. unfold add_with, compare_exchange_strong.
  destruct (func_ (cell w)); [discriminate|].
  destruct (State_eqb (state_ (cell w)) RUNNING); [apply Hcall|].
  destruct (State_eqb (state_ (cell (set_func_ (Some f) w))) NEW).
  - intros [= <-]. split; reflexivity.
  - intro H. apply (@enqueueWork_with_keeps call Hcall) in H. exact H.
Qed.

Lemma add_each_keeps call :
  (forall g w w', call g w = Done w' ->
                  keepAliveCount_ (cell w') = keepAliveCount_ (cell w) /\
                  executorKeepAlive_ (cell w') = executorKeepAlive_ (cell w)) ->
  forall fs w w',
    add_each call fs w = Done w' ->
    keepAliveCount_ (cell w') = keepAliveCount_ (cell w) /\
    executorKeepAlive_ (cell w') = executorKeepAlive_ (cell w).
Proof.
  intros Hcall fs. induction fs as [|f fs IH]; intros w w'; cbn [add_each].
  - intros [= <-]. split; reflexivity.
  - destruct (add_with call f w) as [w1| | |] eqn:E; cbn [bind]; try discriminate.
    intro H. apply IH in H. apply (@add_with_keeps call Hcall) in E.
    destruct H as [-> ->]. exact E.
Qed.

Lemma invoke_keeps fuel :
  forall g w w',
    invoke fuel g w = Done w' ->
    keepAliveCount_ (cell w') = keepAliveCount_ (cell w) /\
    executorKeepAlive_ (cell w') = executorKeepAlive_ (cell w).
Proof.
  induction fuel as [|fuel IH]; intros [t body] w w'; cbn [invoke]; [discriminate|].
  intro H. apply (@add_each_keeps (invoke fuel) IH) in H. exact H.
Qed.

(** X13.  Attaching work or an executor does not touch the tokens: a
    returning [add] leaves [keepAliveCount_] and the executor handle as they
    were, whatever the work re-enters with, and a returning [setExecutor]
    leaves [keepAliveCount_] as it was and holds the executor it was given. *)
Theorem attaching_keeps_the_tokens :
  forall (fuel : nat) (w w' : World) (f : Func) (e : Executor),
    (add fuel f w = Done w' ->
     keepAliveCount_ (cell w') = keepAliveCount_ (cell w) /\
     executorKeepAlive_ (cell w') = executorKeepAlive_ (cell w)) /\
    (setExecutor fuel e w = Done w' ->
     keepAliveCount_ (cell w') = keepAliveCount_ (cell w) /\
     executorKeepAlive_ (cell w') = Some e).
Proof.
  intros fuel w w' f e. split.
  - apply (@add_with_keeps (invoke fuel) (@invoke_keeps fuel)).
  - intro H. apply setExecutor_Done in H.
    destruct (state_ (cell w)); try (subst w'; split; reflexivity);
      apply enqueueWork_Done in H; destruct H as (e' & g & _ & He & ->);
      cbn in He |- *; injection He as <-; split; reflexivity.
Qed.

Lemma attaching_keeps_the_tokens_witness :
  exists w',
    add 2 reentrant_work running_world = Done w' /\
    keepAliveCount_ (cell w') = 1%Z /\
    executorKeepAlive_ (cell w') = Some queue_executor.
Proof.
  eexists. split; [reflexivity|].
  apply (proj1 (@attaching_keeps_the_tokens 2 running_world _ reentrant_work
                  inline_executor)).
  reflexivity.
Defined.

(** X14.  On a new cell the two attachments commute: [add] then
    [setExecutor] and [setExecutor] then [add] return the same world, cell
    and trace. *)
Theorem attachments_commute :
  forall (fuel : nat) (w0 : World) (f : Func) (e : Executor),
    state_ (cell w0) = NEW ->
    func_ (cell w0) = None ->
    depth f <= fuel ->
    exists w,
      bind (add fuel f w0) (setExecutor fuel e) = Done w /\
      bind (setExecutor fuel e w0) (add fuel f) = Done w.
Proof.
  intros fuel w0 f e Hs Hf Hd.
  rewrite (add_on_new fuel f w0 Hs Hf), (setExecutor_on_new fuel e w0 Hs).
  cbn [bind].
  rewrite setExecutor_on_waiting by (cbn; discriminate).
  rewrite add_on_waiting by (cbn; auto).
  erewrite !enqueueWork_submits by (try reflexivity; exact Hd).
  eexists. split; reflexivity.
Qed.

Lemma attachments_commute_witness :
  exists w,
    bind (add 2 reentrant_work new_world) (setExecutor 2 inline_executor) = Done w /\
    bind (setExecutor 2 inline_executor new_world) (add 2 reentrant_work) = Done w.
Proof.
  apply (@attachments_commute 2 new_world reentrant_work inline_executor).
  - reflexivity.
  - reflexivity.
  - cbn. lia.
Defined.

(* ================================================================= *)
(** * Further properties, Part III: tokens                            *)
(* ================================================================= *)

Lemma token_calls_deleted cs n h :
  token_calls cs {| object := None; deletions := n |} = Done h ->
  cs = [] /\ h = {| object := None; deletions := n |}.
Proof.
  destruct cs as [|c cs]; cbn.
  - intros [= <-]. split; reflexivity.
  - destruct c; discriminate.
Qed.

(** While the object lives with a positive counter, calls that return
    leave it alive with the counter moved by their net effect, still
    positive, or deleted by a release that brought the counter to zero. *)
Lemma token_calls_Done cs :
  forall d n h,
    (0 < keepAliveCount_ d)%Z ->
    token_calls cs {| object := Some d; deletions := n |} = Done h ->
    (object h = Some (set_keepAliveCount_ (keepAliveCount_ d + net cs)%Z d) /\
     deletions h = n /\
     (0 < keepAliveCount_ d + net cs)%Z) \/
    (object h = None /\
     deletions h = S n /\
     (keepAliveCount_ d + net cs)%Z = 0%Z).
Proof.
  induction cs as [|c cs IH]; intros d n h Hpos; cbn [token_calls net].
  - intros [= <-]. left. cbn. rewrite set_keepAliveCount_same by lia.
    repeat split; lia.
  - destruct c; cbn [token_call getKeepAliveToken keepAliveRelease
                     keepAliveAcquire releaseAndTryFree object deletions
                     token_delta].
    + destruct (keepAliveCount_ d <? SSIZE_MAX)%Z; [|discriminate].
      cbn [bind]. intro H. apply IH in H; [|cbn; lia].
      cbn [set_keepAliveCount_ keepAliveCount_ func_ state_ executorKeepAlive_] in H.
      unfold set_keepAliveCount_.
      replace (keepAliveCount_ d + (1 + net cs))%Z
        with (keepAliveCount_ d + 1 + net cs)%Z by lia.
      exact H.
    + destruct (SSIZE_MIN <? keepAliveCount_ d)%Z; [|discriminate].
      cbn [set_keepAliveCount_ keepAliveCount_].
      destruct (keepAliveCount_ d - 1 =? 0)%Z eqn:E0; cbn [bind].
      * intro H. apply token_calls_deleted in H. destruct H as [-> ->].
        right. cbn. apply Z.eqb_eq in E0. repeat split; lia.
      * intro H. apply Z.eqb_neq in E0. apply IH in H; [|cbn; lia].
        cbn [set_keepAliveCount_ keepAliveCount_ func_ state_ executorKeepAlive_] in H.
        unfold set_keepAliveCount_.
        replace (keepAliveCount_ d + (-1 + net cs))%Z
          with (keepAliveCount_ d - 1 + net cs)%Z by lia.
        exact H.
Qed.

(** X15.  Whatever tokens are taken and dropped after [create], if the
    calls all return then the object has been deleted at most once: either
    it is alive, never deleted, with [keepAliveCount_] the positive number
    of tokens outstanding, or no token is outstanding and it has been deleted
    exactly once, by the last call. *)
Theorem deleted_at_most_once :
  forall (cs : list TokenCall) (h : Heap),
    bind create (token_calls cs) = Done h ->
    (exists d,
        object h = Some d /\
        deletions h = 0 /\
        keepAliveCount_ d = outstanding cs /\
        (0 < outstanding cs)%Z) \/
    (object h = None /\
     deletions h = 1 /\
     outstanding cs = 0%Z /\
     exists cs', cs = cs' ++ [ReleaseToken]).
Proof.
  intros cs h. rewrite create_returns. cbn [bind]. intro H.
  pose proof H as H'. apply token_calls_Done in H; [|cbn; lia].
  unfold outstanding. cbn [created keepAliveCount_] in H.
  destruct H as [(Ho & Hd & Hp) | (Ho & Hd & Hz)].
  - left. eexists. split; [exact Ho|]. split; [exact Hd|].
    split; [reflexivity | exact Hp].
  - right. repeat split; auto.
    destruct (list_eq_dec (fun x y : TokenCall => ltac:(decide equality)) cs [])
      as [->|Hne]; [discriminate Hz|].
    destruct (exists_last Hne) as [cs' [c ->]]. exists cs'.
    destruct c; [|reflexivity]. exfalso.
    rewrite token_calls_app in H'.
    destruct (token_calls cs' {| object := Some created; deletions := 0 |})
      as [h1| | |]; try discriminate H'.
    cbn [bind token_calls token_call] in H'.
    unfold getKeepAliveToken, keepAliveAcquire in H'.
    destruct (object h1) as [d1|]; [|discriminate H'].
    destruct (keepAliveCount_ d1 <? SSIZE_MAX)%Z; [|discriminate H'].
    cbn [bind] in H'. injection H' as <-. discriminate Ho.
Qed.

Lemma deleted_at_most_once_witness :
  exists d,
    bind create (token_calls [AcquireToken; AcquireToken; ReleaseToken])
    = Done {| object := Some d; deletions := 0 |} /\
    keepAliveCount_ d = 2%Z.
Proof.
  destruct (@deleted_at_most_once [AcquireToken; AcquireToken; ReleaseToken]
              _ eq_refl)
    as [(d & Ho & _ & Hc & _) | (Ho & _)].
  - exists d. cbn in Ho. injection Ho as <-. split; reflexivity.
  - discriminate Ho.
Defined.

(** X16.  Taking a token and dropping it again leaves a cell that somebody
    holds exactly as it was; on an object nobody holds (counter at zero) the
    same pair of calls deletes it. *)
Theorem acquire_then_release :
  forall (d : DeferredExecutor) (n : nat),
    (0 <= keepAliveCount_ d < SSIZE_MAX)%Z ->
    bind (getKeepAliveToken {| object := Some d; deletions := n |}) keepAliveRelease
    = Done (if (keepAliveCount_ d =? 0)%Z
            then {| object := None; deletions := S n |}
            else {| object := Some d; deletions := n |}).
Proof.
  intros d n [Hlo Hhi].
  unfold getKeepAliveToken, keepAliveAcquire, keepAliveRelease, releaseAndTryFree.
  cbn [object deletions].
  destruct (keepAliveCount_ d <? SSIZE_MAX)%Z eqn:E; [|apply Z.ltb_ge in E; lia].
  cbn [bind object deletions set_keepAliveCount_ keepAliveCount_].
  destruct (SSIZE_MIN <? keepAliveCount_ d + 1)%Z eqn:E1;
    [|apply Z.ltb_ge in E1; unfold SSIZE_MIN in E1; lia].
  replace (keepAliveCount_ d + 1 - 1)%Z with (keepAliveCount_ d) by lia.
  destruct (keepAliveCount_ d =? 0)%Z; [reflexivity|].
  now destruct d.
Qed.

Lemma acquire_then_release_witness :
  bind (getKeepAliveToken {| object := Some created; deletions := 0 |})
       keepAliveRelease
  = Done {| object := Some created; deletions := 0 |}.
Proof.
  apply (@acquire_then_release created 0). cbn. unfold SSIZE_MAX. lia.
Defined.

(* ================================================================= *)
(** * Further properties, Part V: the race                            *)
(* ================================================================= *)

(** The race of X17 at one interleaving. *)
Lemma race_has_no_data_race_witness :
  exists m,
    machine_run (invoke 2) reentrant_work inline_executor sample_schedule
                (machine_init reentrant_work inline_executor new_world)
    = Done m /\
    conflicting m = false.
Proof.
  apply (@race_has_no_data_race 2 new_world reentrant_work inline_executor
           sample_schedule).
  - reflexivity.
  - reflexivity.
  - cbn. lia.
Defined.

(** X18.  Neither call waits for the other: under every interleaving the
    [add] has returned once its thread has taken 8 steps and the
    [setExecutor] once its thread has taken 6, however few steps the other
    thread has been given. *)
Theorem each_call_returns_in_its_own_steps :
  forall (fuel : nat) (w0 : World) (func : Func) (exec : Executor)
         (sched : list Tid),
    state_ (cell w0) = NEW ->
    func_ (cell w0) = None ->
    depth func <= fuel ->
    exists m,
      machine_run (invoke fuel) func exec sched (machine_init func exec w0)
      = Done m /\
      (8 <= steps_of Adder sched -> pc_adder m = Returned) /\
      (6 <= steps_of Setter sched -> pc_setter m = Returned).
Proof.
  intros fuel w0 func exec sched Hs Hf Hd.
  destruct (@race_invariant_run fuel w0 func exec sched Hd _
              (@race_invariant_init w0 func exec Hs Hf))
    as (m & Hrun & _ & Hsteps).
  exists m. split; [exact Hrun|].
  pose proof (Hsteps Adder) as H1. pose proof (Hsteps Setter) as H2.
  cbn [pc_of machine_init pc_adder pc_setter entry steps_left] in H1, H2.
  split; intro H.
  - assert (E : steps_left (pc_adder m) = 0) by lia.
    destruct (pc_adder m); try discriminate E. reflexivity.
  - assert (E : steps_left (pc_setter m) = 0) by lia.
    destruct (pc_setter m); try discriminate E. reflexivity.
Qed.

(** The adder runs alone: it returns, with the work pending, while the
    setter has not started. *)
Lemma each_call_returns_in_its_own_steps_witness :
  exists m,
    machine_run (invoke 2) reentrant_work inline_executor (repeat Adder 8)
                (machine_init reentrant_work inline_executor new_world)
    = Done m /\
    pc_adder m = Returned /\
    pc_setter m = AtStoreExecutor.
Proof.
  destruct (@each_call_returns_in_its_own_steps 2 new_world reentrant_work
              inline_executor (repeat Adder 8))
    as (m & Hrun & Ha & _).
  - reflexivity.
  - reflexivity.
  - cbn. lia.
  - exists m. split; [exact Hrun|]. split; [apply Ha; cbn; lia|].
    cbn in Hrun. injection Hrun as <-. reflexivity.
Defined.

Lemma thread_step_keeps_count fuel meth pc w pc' w' :
  thread_step (invoke fuel) meth pc w = Done (pc', w') ->
  keepAliveCount_ (cell w') = keepAliveCount_ (cell w).
Proof.
  assert (Hsub : forall e f w1 w2,
             Executor_add (invoke fuel) e f w1 = Done w2 ->
             keepAliveCount_ (cell w2) = keepAliveCount_ (cell w1)).
  { intros e f w1 w2. unfold Executor_add. destruct (exec_inline e).
    - intro H. apply invoke_keeps in H. exact (proj1 H).
    - now intros [= <-]. }
  destruct pc, meth; cbn [thread_step];
    try (intros [= _ <-]; reflexivity).
  all: try (destruct (func_ (cell w)); [|discriminate || idtac];
            try discriminate; intros [= _ <-]; reflexivity).
  all: try (destruct (State_eqb (state_ (cell w)) RUNNING);
            intros [= _ <-]; reflexivity).
  all: try (destruct (State_eqb (state_ (cell w)) NEW);
            intros [= _ <-]; reflexivity).
  all: try (unfold compare_exchange_strong;
            destruct (State_eqb (state_ (cell w)) NEW);
            intros [= _ <-]; reflexivity).
  all: try (destruct (invoke fuel func0 w) as [w2| | |] eqn:E; cbn [bind];
            try discriminate; intros [= _ <-];
            apply invoke_keeps in E; exact (proj1 E)).
  all: destruct (executorKeepAlive_ (cell w)) as [e0|]; [|discriminate];
    destruct (func_ (cell w)) as [f0|]; [|discriminate];
    destruct (Executor_add (invoke fuel) e0 f0 (set_func_ None w)) as [w2| | |] eqn:E;
    cbn [bind]; try discriminate; intros [= _ <-];
    apply Hsub in E; exact E.
Qed.

Lemma machine_run_keeps_count fuel func exec sched :
  forall m m',
    machine_run (invoke fuel) func exec sched m = Done m' ->
    keepAliveCount_ (cell (shared m')) = keepAliveCount_ (cell (shared m)).
Proof.
  induction sched as [|t sched IH]; intros m m'; cbn [machine_run].
  - now intros [= <-].
  - unfold machine_step.
    destruct (thread_step (invoke fuel) (method_of func exec t) (pc_of t m) (shared m))
      as [[pc1 w1]| | |] eqn:E; cbn [bind]; try discriminate.
    intro H. apply IH in H. cbn [shared fst snd] in H. rewrite H.
    exact (thread_step_keeps_count _ _ _ _ E).
Qed.

(** X19.  Every interleaving ends where the calls made one after the other
    end: once both calls have returned, the shared world, cell and trace, is
    the world [add] followed by [setExecutor] returns (and so, by X14, the
    one [setExecutor] followed by [add] returns). *)
Theorem race_ends_as_the_calls_in_sequence :
  forall (fuel : nat) (w0 : World) (func : Func) (exec : Executor)
         (sched : list Tid) (m : Machine),
    state_ (cell w0) = NEW ->
    func_ (cell w0) = None ->
    depth func <= fuel ->
    machine_run (invoke fuel) func exec sched (machine_init func exec w0)
    = Done m ->
    finished m = true ->
    bind (add fuel func w0) (setExecutor fuel exec) = Done (shared m).
Proof.
  intros fuel w0 func exec sched m Hs Hf Hd Hrun Hfin.
  destruct (@race_invariant_run fuel w0 func exec sched Hd _
              (@race_invariant_init w0 func exec Hs Hf))
    as (m1 & Hrun1 & Hm & _).
  rewrite Hrun in Hrun1. injection Hrun1 as <-.
  apply machine_run_keeps_count in Hrun. cbn [machine_init shared] in Hrun.
  rewrite (add_on_new fuel func w0 Hs Hf). cbn [bind].
  rewrite setExecutor_on_waiting by (cbn; discriminate).
  erewrite enqueueWork_submits by (try reflexivity; exact Hd).
  cbn [set_executorKeepAlive_ set_state_ set_func_ cell trace keepAliveCount_].
  unfold finished in Hfin. apply andb_true_iff in Hfin. destruct Hfin as [Ha Hb].
  apply Pc_eqb_Returned in Ha, Hb.
  destruct Hm as [? Ha' ? ? ? ? ? ?|u ? Ha' Hb' ? ? ? ? ?|u ? Ha' Hb' ? ? ? ? ?
                 |u Hst _ _ Hfn He Ht _ _].
  - rewrite Ha in Ha'. discriminate.
  - destruct u; cbn in Hb'; rewrite ?Ha, ?Hb in Hb'; discriminate.
  - destruct u; cbn in Hb'; rewrite ?Ha, ?Hb in Hb'; discriminate.
  - destruct m as [[[F K S E] T] pa ps cw sb]. cbn in *. subst.
    reflexivity.
Qed.

Lemma race_ends_as_the_calls_in_sequence_witness :
  exists m,
    machine_run (invoke 2) reentrant_work inline_executor sample_schedule
                (machine_init reentrant_work inline_executor new_world)
    = Done m /\
    bind (add 2 reentrant_work new_world) (setExecutor 2 inline_executor)
    = Done (shared m).
Proof.
  eexists. split; [vm_compute; reflexivity|].
  apply (@race_ends_as_the_calls_in_sequence 2 new_world reentrant_work
           inline_executor sample_schedule).
  - reflexivity.
  - reflexivity.
  - cbn. lia.
  - vm_compute. reflexivity.
  - vm_compute. reflexivity.
Defined.
